(** * LegalGuard AI: the bilingual PII detector ([chatbot_api/pii_utils.py])

    A shallow embedding of [BilingualPIIDetector] and of the four
    convenience functions built on it, followed by the properties the
    specification states about detection, overlap resolution and redaction.

    Conventions of the embedding:
    - a Python [str] is a list of characters; characters are 8-bit code
      points (the Latin-1 block of Unicode, which contains every character
      the six patterns and the strategy markers mention);
    - character offsets are naturals: spaCy's [start_char]/[end_char] and
      [re]'s [match.start()]/[match.end()] are never negative, and on
      naturals the slices [s[:i]] and [s[j:]] are [take i s] and [drop j s],
      with the same behaviour past the end of the string;
    - the language model behind [detect_language] and the two spaCy
      pipelines are external: they are the variables of the section
      [Detector], each one a function that returns a value or raises;
    - every call of an external service is recorded in a trace that the
      detector threads through its operations. *)

From Stdlib Require Import Ascii String DecimalString.
From stdpp Require Import base option list sorting gmap strings.

Local Open Scope nat_scope.

(** ** Python strings *)

Abbreviation str := (list ascii).

Definition lit (s : string) : str := list_ascii_of_string s.

Definition code (c : ascii) : nat := nat_of_ascii c.

Definition in_range (lo hi : nat) (c : ascii) : bool :=
  (lo <=? code c) && (code c <=? hi).

(** [str.isspace] on one character, [Py_UNICODE_ISSPACE]: the characters of
    bidirectional type WS, B or S, or of category Zs. *)
Definition isspace_char (c : ascii) : bool :=
  in_range 9 13 c || in_range 28 32 c || (code c =? 133) || (code c =? 160).

(** [str.isdecimal] on one character: category Nd. *)
Definition isdecimal_char (c : ascii) : bool := in_range 48 57 c.

Definition isupper_ascii (c : ascii) : bool := in_range 65 90 c.
Definition islower_ascii (c : ascii) : bool := in_range 97 122 c.

(** [Py_UNICODE_ISALNUM]: alphabetic, decimal, digit or numeric. *)
Definition isalnum_char (c : ascii) : bool :=
  isdecimal_char c || isupper_ascii c || islower_ascii c
  || (code c =? 170) || (code c =? 178) || (code c =? 179) || (code c =? 181)
  || (code c =? 185) || (code c =? 186) || in_range 188 190 c
  || in_range 192 214 c || in_range 216 246 c || in_range 248 255 c.

Fixpoint lstrip (s : str) : str :=
  match s with
  | c :: s' => if isspace_char c then lstrip s' else s
  | [] => []
  end.

Definition rstrip (s : str) : str := rev (lstrip (rev s)).

(** [s.strip()] *)
Definition strip (s : str) : str := rstrip (lstrip s).

(** [s.isspace()]: every character is whitespace and there is at least one. *)
Definition isspace (s : str) : bool :=
  match s with
  | [] => false
  | _ => forallb isspace_char s
  end.

(** Truth value of a string: [bool(s)]. *)
Definition truthy (s : str) : bool :=
  match s with [] => false | _ => true end.

(** [c in s] *)
Definition contains (c : ascii) (s : str) : bool :=
  existsb (Ascii.eqb c) s.

(** [s.split(sep)] for a one-character separator. *)
Fixpoint split (sep : ascii) (s : str) : list str :=
  match s with
  | [] => [[]]
  | c :: s' =>
      if Ascii.eqb c sep then [] :: split sep s'
      else match split sep s' with
           | p :: ps => (c :: p) :: ps
           | [] => [[c]]
           end
  end.

(** [s[-n:]] for [n > 0] *)
Definition last_chars (n : nat) (s : str) : str := drop (length s - n) s.

(** [s[i:j]] *)
Definition slice (i j : nat) (s : str) : str := take (j - i) (drop i s).

Definition str_eqb (a b : str) : bool := bool_decide (a = b).

(** ** The regular expressions of [regex_patterns]

    The fragment of [re] the six patterns are written in: character sets
    with a greedy bounded or unbounded repetition, the word boundary, the
    greedy optional group and concatenation.  Matching is backtracking
    with the priorities of [re]: a repetition takes as many characters as
    it can and gives them back one at a time, an optional group is tried
    before it is skipped. *)

Module Regex.

Inductive item :=
| Chr (c : ascii)              (* a literal character *)
| Rng (lo hi : ascii)          (* lo-hi *)
| Digit                        (* \d *)
| Space.                       (* \s *)

Inductive regex :=
| Eps
| WordB                                       (* \b *)
| Set_ (cs : list item) (lo : nat) (hi : option nat)
                                              (* [cs]{lo,hi}; hi = None: no bound *)
| Seq (a b : regex)
| Opt (a : regex).                            (* (a)? *)

Definition to_lower (c : ascii) : ascii :=
  if isupper_ascii c then ascii_of_nat (code c + 32) else c.

Definition to_upper (c : ascii) : ascii :=
  if islower_ascii c then ascii_of_nat (code c - 32) else c.

Definition item_exact (it : item) (c : ascii) : bool :=
  match it with
  | Chr x => Ascii.eqb x c
  | Rng lo hi => in_range (code lo) (code hi) c
  | Digit => isdecimal_char c
  | Space => isspace_char c
  end.

(** With [re.IGNORECASE] a character matches an item when one of its case
    variants does.  The items of the six patterns are ASCII, so only the
    ASCII case pairs matter. *)
Definition item_matches (ignorecase : bool) (it : item) (c : ascii) : bool :=
  item_exact it c
  || (ignorecase && (item_exact it (to_lower c) || item_exact it (to_upper c))).

Definition set_matches (ignorecase : bool) (cs : list item) (c : ascii) : bool :=
  existsb (fun it => item_matches ignorecase it c) cs.

(** \w *)
Definition is_word (c : ascii) : bool :=
  isalnum_char c || Ascii.eqb c "_".

Definition is_word_at (o : option ascii) : bool :=
  match o with Some c => is_word c | None => false end.

(** The continuation receives the character before the current position,
    the rest of the text and the current offset. *)
Definition cont := option ascii -> str -> nat -> option nat.

Definition may_take (hi : option nat) : bool :=
  match hi with Some O => false | _ => true end.

Definition after_take (hi : option nat) : option nat :=
  match hi with Some n => Some (pred n) | None => None end.

Fixpoint rep_match (p : ascii -> bool) (lo : nat) (hi : option nat)
    (prev : option ascii) (s : str) (pos : nat) (k : cont) : option nat :=
  let stop := match lo with O => k prev s pos | S _ => None end in
  match s with
  | c :: s' =>
      if p c && may_take hi then
        match rep_match p (pred lo) (after_take hi) (Some c) s' (S pos) k with
        | Some e => Some e
        | None => stop
        end
      else stop
  | [] => stop
  end.

Fixpoint rmatch (ic : bool) (r : regex)
    (prev : option ascii) (s : str) (pos : nat) (k : cont) : option nat :=
  match r with
  | Eps => k prev s pos
  | WordB =>
      if xorb (is_word_at prev) (is_word_at (head s)) then k prev s pos
      else None
  | Set_ cs lo hi => rep_match (set_matches ic cs) lo hi prev s pos k
  | Seq a b => rmatch ic a prev s pos (fun p' s' pos' => rmatch ic b p' s' pos' k)
  | Opt a =>
      match rmatch ic a prev s pos k with
      | Some e => Some e
      | None => k prev s pos
      end
  end.

(** The end of the match that starts at the current position, if any. *)
Definition match_here (ic : bool) (r : regex)
    (prev : option ascii) (s : str) (pos : nat) : option nat :=
  rmatch ic r prev s pos (fun _ _ e => Some e).

(** The scan of [re.finditer]: leftmost matches, the search resuming where
    the previous match ended ([skip] counts the characters of the current
    match still to step over). *)
Fixpoint scan (ic : bool) (r : regex)
    (prev : option ascii) (s : str) (pos skip : nat) : list (nat * nat) :=
  match skip with
  | S n =>
      match s with
      | c :: s' => scan ic r (Some c) s' (S pos) n
      | [] => []
      end
  | O =>
      match match_here ic r prev s pos with
      | Some e =>
          (pos, e) ::
          match s with
          | c :: s' => scan ic r (Some c) s' (S pos) (e - pos - 1)
          | [] => []
          end
      | None =>
          match s with
          | c :: s' => scan ic r (Some c) s' (S pos) 0
          | [] => []
          end
      end
  end.

(** [[(m.start(), m.end()) for m in re.finditer(r, text, flags)]] *)
Definition finditer (ic : bool) (r : regex) (text : str) : list (nat * nat) :=
  scan ic r None text 0 0.

Definition seq_of (rs : list regex) : regex := foldr Seq Eps rs.

Definition one (cs : list item) : regex := Set_ cs 1 (Some 1).
Definition opt1 (cs : list item) : regex := Set_ cs 0 (Some 1).
Definition times (cs : list item) (n : nat) : regex := Set_ cs n (Some n).
Definition between (cs : list item) (lo hi : nat) : regex := Set_ cs lo (Some hi).
Definition at_least (cs : list item) (lo : nat) : regex := Set_ cs lo None.

(** The strings a pattern can match, whatever surrounds them: [shaped r w]
    holds of every match [w] of [r]. *)
Definition within (hi : option nat) (n : nat) : Prop :=
  match hi with Some h => n <= h | None => True end.

Fixpoint shaped (ic : bool) (r : regex) (w : str) : Prop :=
  match r with
  | Eps | WordB => w = []
  | Set_ cs lo hi =>
      lo <= length w /\ within hi (length w) /\
      Forall (fun c => set_matches ic cs c = true) w
  | Seq a b => exists wa wb, w = wa ++ wb /\ shaped ic a wa /\ shaped ic b wb
  | Opt a => w = [] \/ shaped ic a w
  end.

(** No character set of the pattern accepts [x]. *)
Fixpoint never_matches (ic : bool) (x : ascii) (r : regex) : bool :=
  match r with
  | Eps | WordB => true
  | Set_ cs _ _ => negb (set_matches ic cs x)
  | Seq a b => never_matches ic x a && never_matches ic x b
  | Opt a => never_matches ic x a
  end.

End Regex.

(** ** Entities, exceptions and the trace of external calls *)

(** One element of spaCy's [doc.ents]. *)
Record Span := mkSpan {
  ent_text : str;
  label_ : str;
  start_char : nat;
  end_char : nat
}.

(** The dictionary [detect_pii_entities] builds for a detected span. *)
Record Entity := mkEntity {
  e_text : str;
  e_label : str;
  e_start : nat;
  e_end : nat;
  e_source : str;
  e_language : str
}.

#[global] Instance Entity_eq_dec : EqDecision Entity.
Proof. solve_decision. Defined.

Inductive exn :=
| ExternalError (msg : str)      (* whatever an external service raises *)
| ValueError (msg : str)
| IndexError.

Inductive result (A : Type) :=
| Ok (a : A)
| Raise (e : exn).
Arguments Ok {A} a.
Arguments Raise {A} e.

Inductive call :=
| CallLanguageModel (text : str)   (* self.llm...invoke(prompt) *)
| CallNlpEn (text : str)           (* self.nlp_en(text) *)
| CallNlpFr (text : str).          (* self.nlp_fr(text) *)

(** Computations of the detector: they may raise and they extend the
    trace of external calls. *)
Definition M (A : Type) : Type := list call -> result A * list call.

Definition ret {A} (a : A) : M A := fun tr => (Ok a, tr).

Definition bind {A B} (m : M A) (f : A -> M B) : M B :=
  fun tr =>
    match m tr with
    | (Ok a, tr') => f a tr'
    | (Raise e, tr') => (Raise e, tr')
    end.

Definition lift {A} (r : result A) : M A := fun tr => (r, tr).

Definition external {A} (c : call) (r : result A) : M A :=
  fun tr => (r, tr ++ [c]).

Notation "'let*' x ':=' m 'in' k" := (bind m (fun x => k))
  (at level 10, x name, m at level 100, k at level 200).

(** [l[i]] *)
Definition index {A} (l : list A) (i : nat) : result A :=
  match l !! i with
  | Some x => Ok x
  | None => Raise IndexError
  end.

(** ** [sorted]

    Python's [sorted] is stable, also with [reverse=True]: elements with
    equal keys keep the order they had.  Insertion from the right has the
    same property. *)

Section Sorted.
Context {A : Type} (key : A -> nat).

Fixpoint insert_by (before : nat -> nat -> bool) (x : A) (l : list A) : list A :=
  match l with
  | [] => [x]
  | y :: l' =>
      if before (key x) (key y) then x :: l else y :: insert_by before x l'
  end.

(** [sorted(l, key=key)] *)
Definition sorted (l : list A) : list A :=
  foldr (insert_by Nat.leb) [] l.

(** [sorted(l, key=key, reverse=True)] *)
Definition sorted_reverse (l : list A) : list A :=
  foldr (insert_by (fun a b => b <=? a)) [] l.

Definition ascending (a b : A) : Prop := key a <= key b.
Definition descending (a b : A) : Prop := key b <= key a.
End Sorted.

(** ** [BilingualPIIDetector] *)

Import Regex.

Definition alnum_items : list item :=
  [Rng "A" "Z"; Rng "a" "z"; Rng "0" "9"].

Definition separator : list item := [Chr "-"; Chr "."; Space].

(** The part of the EMAIL pattern after the at sign. *)
Definition email_domain : list regex :=
  [ at_least (alnum_items ++ [Chr "."; Chr "-"]) 1;
    one [Chr "."];
    at_least [Rng "A" "Z"; Chr "|"; Rng "a" "z"] 2;
    WordB ].

Definition email_pattern : regex :=
  seq_of ([ WordB;
            at_least (alnum_items ++ [Chr "."; Chr "_"; Chr "%"; Chr "+"; Chr "-"]) 1;
            one [Chr "@"] ] ++ email_domain).

Definition phone_pattern : regex :=
  seq_of [ Opt (seq_of [opt1 [Chr "+"]; between [Digit] 1 3; opt1 separator]);
           opt1 [Chr "("];
           between [Digit] 1 4;
           opt1 [Chr ")"];
           opt1 separator;
           between [Digit] 1 4;
           opt1 separator;
           between [Digit] 1 9 ].

(** [self.regex_patterns], in the order of the dictionary literal. *)
Definition regex_patterns : list (str * regex) :=
  [ (lit "EMAIL", email_pattern);
    (lit "PHONE", phone_pattern);
    (lit "SSN",
      seq_of [ WordB; times [Digit] 3; one [Chr "-"]; times [Digit] 2;
               one [Chr "-"]; times [Digit] 4; WordB ]);
    (lit "CREDIT_CARD",
      seq_of [ WordB; times [Digit] 4; opt1 [Chr "-"; Chr " "];
               times [Digit] 4; opt1 [Chr "-"; Chr " "];
               times [Digit] 4; opt1 [Chr "-"; Chr " "];
               times [Digit] 4; WordB ]);
    (lit "FRENCH_SSN",
      seq_of [ WordB; one [Chr "1"; Chr "2"]; times [Digit] 12; WordB ]);
    (lit "PASSPORT",
      seq_of [ WordB; between [Rng "A" "Z"] 1 2; between [Digit] 6 9; WordB ]) ].

Definition sensitive_labels_en : gset str := {[ lit "PERSON" ]}.
Definition sensitive_labels_fr : gset str := {[ lit "PER" ]}.

(** The test of the inner loop: the match [start, end) against one entity. *)
Definition intersects (m_start m_end : nat) (entity : Entity) : bool :=
  negb ((m_end <=? e_start entity) || (e_end entity <=? m_start)).

(** The loop over [entities] with its [break]. *)
Definition overlap (m_start m_end : nat) (entities : list Entity) : bool :=
  existsb (intersects m_start m_end) entities.

(** The filter on one element of [doc.ents]. *)
Definition keep_ent (sensitive_labels : gset str) (ent : Span) : bool :=
  bool_decide (label_ ent ∈ sensitive_labels)
  && (2 <? length (strip (ent_text ent)))
  && negb (isspace (ent_text ent)).

Definition spacy_entity (language : str) (ent : Span) : Entity :=
  {| e_text := ent_text ent; e_label := label_ ent;
     e_start := start_char ent; e_end := end_char ent;
     e_source := lit "spacy"; e_language := language |}.

(** The first loop: the entities taken from [doc.ents]. *)
Definition spacy_entities (language : str) (sensitive_labels : gset str)
    (ents : list Span) : list Entity :=
  spacy_entity language
    <$> filter (fun ent => keep_ent sensitive_labels ent = true) ents.

Definition regex_entity (text language pattern_name : str) (m : nat * nat) : Entity :=
  {| e_text := slice (fst m) (snd m) text; e_label := pattern_name;
     e_start := fst m; e_end := snd m;
     e_source := lit "regex"; e_language := language |}.

(** The body of the loop over the matches of one pattern. *)
Definition add_match (text language pattern_name : str)
    (entities : list Entity) (m : nat * nat) : list Entity :=
  if overlap (fst m) (snd m) entities then entities
  else entities ++ [regex_entity text language pattern_name m].

(** The second loop: over the patterns and, for each, over its matches. *)
Definition add_pattern (text language : str)
    (entities : list Entity) (p : str * regex) : list Entity :=
  foldl (add_match text language (fst p)) entities (finditer true (snd p) text).

Definition regex_loop (text language : str) (entities : list Entity) : list Entity :=
  foldl (add_pattern text language) entities regex_patterns.

Definition entity_key (entity : Entity) : str * nat * nat :=
  (e_text entity, e_start entity, e_end entity).

(** The third loop: the first entity of each key is kept. *)
Fixpoint unique_loop (seen : gset (str * nat * nat)) (entities : list Entity)
    : list Entity :=
  match entities with
  | [] => []
  | entity :: rest =>
      if bool_decide (entity_key entity ∈ seen) then unique_loop seen rest
      else entity :: unique_loop ({[ entity_key entity ]} ∪ seen) rest
  end.

Definition unique_entities (entities : list Entity) : list Entity :=
  unique_loop ∅ entities.

(** The message of the [ValueError] raised by the block strategy. *)
Definition blocked_message (entity : Entity) : str :=
  lit "Confidential information detected and blocked: "
  ++ e_label entity ++ lit " - " ++ e_text entity.

Definition redacted_marker (entity : Entity) : str :=
  lit "[REDACTED_" ++ e_label entity ++ lit "]".

Definition _get_replacement (entity : Entity) (strategy : str) : result str :=
  if str_eqb strategy (lit "redact") then Ok (redacted_marker entity)
  else if str_eqb strategy (lit "mask") then
    if bool_decide (e_label entity ∈ [lit "EMAIL"; lit "PHONE"]) then
      let text := e_text entity in
      if contains "@" text then
        let parts := split "@" text in
        match index parts 0 with
        | Raise e => Raise e
        | Ok local =>
            match index parts 1 with
            | Raise e => Raise e
            | Ok domain => Ok (take 2 local ++ lit "***@" ++ domain)
            end
        end
      else
        if 4 <? length text then Ok (lit "***-***-" ++ last_chars 4 text)
        else Ok (lit "***")
    else Ok (lit "***" ++ e_label entity ++ lit "***")
  else if str_eqb strategy (lit "block") then Raise (ValueError (blocked_message entity))
  else Ok (redacted_marker entity).

(** The loop of [redact_pii] over the entities in processing order. *)
Fixpoint redact_loop (entities : list Entity) (strategy : str)
    (redacted_text : str) : result str :=
  match entities with
  | [] => Ok redacted_text
  | entity :: rest =>
      match _get_replacement entity strategy with
      | Raise e => Raise e
      | Ok replacement =>
          redact_loop rest strategy
            (take (e_start entity) redacted_text
             ++ replacement
             ++ drop (e_end entity) redacted_text)
      end
  end.

Record Summary := mkSummary {
  has_confidential_info : bool;
  entities_found : nat;
  entity_types : list str;
  safe_text : str;
  details : list Entity
}.

Section Detector.

(** [response.language] of the structured call to the language model. *)
Variable llm : str -> result str.
(** [doc.ents] of the two spaCy pipelines. *)
Variable nlp_en : str -> result (list Span).
Variable nlp_fr : str -> result (list Span).

Definition detect_language (text : str) : M str :=
  external (CallLanguageModel text) (llm text).

Definition detect_pii_entities (text : str) : M (list Entity) :=
  if negb (truthy text) || negb (truthy (strip text)) then ret []
  else
    let* language := detect_language text in
    let* doc :=
      (if str_eqb language (lit "en")
       then let* ents := external (CallNlpEn text) (nlp_en text) in
            ret (ents, sensitive_labels_en)
       else let* ents := external (CallNlpFr text) (nlp_fr text) in
            ret (ents, sensitive_labels_fr)) in
    let entities := spacy_entities language (snd doc) (fst doc) in
    let entities := regex_loop text language entities in
    ret (sorted e_start (unique_entities entities)).

Definition redact_pii (text strategy : str) : M (str * list Entity) :=
  let* entities := detect_pii_entities text in
  let* redacted_text :=
    lift (redact_loop (sorted_reverse e_start entities) strategy text) in
  ret (redacted_text, entities).

Definition contains_pii (text : str) : M bool :=
  let* entities := detect_pii_entities text in
  ret (0 <? length entities).

Definition get_pii_summary (text : str) : M Summary :=
  let* entities := detect_pii_entities text in
  let* redacted := redact_pii text (lit "redact") in
  ret {| has_confidential_info := 0 <? length entities;
         entities_found := length entities;
         entity_types := elements (list_to_set (e_label <$> entities) : gset str);
         safe_text := fst redacted;
         details := entities |}.

(** The module-level convenience functions. *)
Definition detect_pii := detect_pii_entities.
Definition get_pii_report := get_pii_summary.

End Detector.


(** ** Notions the statements use *)

Definition spans_disjoint (a b : Entity) : Prop :=
  e_end a <= e_start b \/ e_end b <= e_start a.

(** No two entities of the list, taken at different positions, overlap. *)
Definition pairwise_disjoint (l : list Entity) : Prop :=
  ForallOrdPairs spans_disjoint l.

(** The matches of all the patterns, in the order the loops visit them. *)
Definition pattern_matches (text : str) : list (str * (nat * nat)) :=
  flat_map (fun p => pair (fst p) <$> finditer true (snd p) text)
           regex_patterns.

Definition add_candidate (text language : str)
    (entities : list Entity) (c : str * (nat * nat)) : list Entity :=
  add_match text language (fst c) entities (snd c).

Definition candidate_entity (text language : str) (c : str * (nat * nat)) : Entity :=
  regex_entity text language (fst c) (snd c).

(** The text is empty or made of whitespace only. *)
Definition all_whitespace (s : str) : Prop :=
  Forall (fun c => isspace_char c = true) s.

(** The test of the first line of [detect_pii_entities]. *)
Definition is_blank (text : str) : bool :=
  negb (truthy text) || negb (truthy (strip text)).

(** What the dispatch on the language code selects. *)
Definition selected_labels (language : str) : gset str :=
  if str_eqb language (lit "en") then sensitive_labels_en else sensitive_labels_fr.

Definition selected_nlp (nlp_en nlp_fr : str -> result (list Span))
    (language : str) : str -> result (list Span) :=
  if str_eqb language (lit "en") then nlp_en else nlp_fr.

Definition selected_call (language text : str) : call :=
  if str_eqb language (lit "en") then CallNlpEn text else CallNlpFr text.

(** The three loops and the final sort, on the spans of [doc.ents]. *)
Definition aggregate (text language : str) (ents : list Span) : list Entity :=
  sorted e_start
    (unique_entities
       (regex_loop text language
          (spacy_entities language (selected_labels language) ents))).

(** The calls one run of detection makes. *)
Definition detection_calls (llm : str -> result str)
    (nlp_en nlp_fr : str -> result (list Span)) (text : str) : list call :=
  snd (detect_pii_entities llm nlp_en nlp_fr text []).

(** ** Notions the statements about redaction use *)

(** The replacement [_get_replacement] returns, when it returns one. *)
Definition replacement_text (entity : Entity) (strategy : str) : str :=
  match _get_replacement entity strategy with
  | Ok replacement => replacement
  | Raise _ => []
  end.

(** The original text rewritten front to back from offset [pos]: the
    characters up to the next span are copied, the span is replaced, and
    the rewriting goes on from the end of the span. *)
Fixpoint spliced (strategy text : str) (pos : nat) (entities : list Entity) : str :=
  match entities with
  | [] => drop pos text
  | entity :: rest =>
      slice pos (e_start entity) text
      ++ replacement_text entity strategy
      ++ spliced strategy text (e_end entity) rest
  end.

(** [0 <= start < end <= len(text)] *)
Definition valid_offsets (text : str) (entity : Entity) : Prop :=
  e_start entity < e_end entity /\ e_end entity <= length text.

(** The spans follow one another from offset [pos] on, inside the text. *)
Fixpoint chained (text : str) (pos : nat) (entities : list Entity) : Prop :=
  match entities with
  | [] => True
  | entity :: rest =>
      pos <= e_start entity /\ valid_offsets text entity /\
      chained text (e_end entity) rest
  end.

(** One iteration of the loop of [redact_pii], with the replacement known. *)
Definition replace_span (strategy : str) (entity : Entity) (redacted_text : str) : str :=
  take (e_start entity) redacted_text
  ++ replacement_text entity strategy
  ++ drop (e_end entity) redacted_text.


(** ** The masks as the specification words them *)

(** The last [n] digits of a match. *)
Definition last_digits (n : nat) (s : str) : str :=
  last_chars n (filter (fun c => isdecimal_char c = true) s).

(** ** Scenarios

    Concrete external services and texts on which the statements below are
    evaluated. *)

(** A language model that always answers [language]. *)
Definition says (language : string) : str -> result str :=
  fun _ => Ok (lit language).

(** A pipeline whose [doc.ents] is always [ents]. *)
Definition finds (ents : list Span) : str -> result (list Span) :=
  fun _ => Ok ents.

(** A service that is down. *)
Definition down {A} (msg : string) : str -> result A :=
  fun _ => Raise (ExternalError (lit msg)).

Definition a_span (label text : string) (start_char end_char : nat) : Span :=
  mkSpan (lit text) (lit label) start_char end_char.

Definition an_entity (label text : string) (e_start e_end : nat)
    (source language : string) : Entity :=
  mkEntity (lit text) (lit label) e_start e_end (lit source) (lit language).

(** A recognizer that reports a name and, again, its second half. *)
Definition nested_names : list Span :=
  [a_span "PERSON" "John Smith" 0 10; a_span "PERSON" "Smith" 5 10].

Definition contact_text : str :=
  lit "Contact John Smith at john.smith@example.com".

Definition contact_names : list Span := [a_span "PERSON" "John Smith" 8 18].

Definition contact_entities : list Entity :=
  [an_entity "PERSON" "John Smith" 8 18 "spacy" "en";
   an_entity "EMAIL" "john.smith@example.com" 22 44 "regex" "en"].

(** A name that contains digits the phone pattern also matches. *)
Definition agent_text : str := lit "Agent 007 Bond 555 1234".

Definition agent_names : list Span := [a_span "PERSON" "Agent 007 Bond" 0 14].

Definition agent_entities : list Entity :=
  [an_entity "PERSON" "Agent 007 Bond" 0 14 "spacy" "en";
   an_entity "PHONE" "555 1234" 15 23 "regex" "en"].

(** A French sentence with a name and a place. *)
Definition curie_text : str := lit "Marie Curie habite Paris".

Definition curie_ents : list Span :=
  [a_span "PER" "Marie Curie" 0 11; a_span "LOC" "Paris" 19 24].

Definition phone_text : str := lit "My number is 555-123-4567".

(** A French number, written in pairs of digits. *)
Definition appel_text : str := lit "Appelez le 06 12 34 56 78".

Definition appel_entity : Entity := an_entity "PHONE" "06 12 34 56" 11 22 "regex" "fr".

(** ** Notions the further statements use *)

(** The least number of characters a pattern matches. *)
Fixpoint min_length (r : regex) : nat :=
  match r with
  | Eps | WordB => 0
  | Set_ _ lo _ => lo
  | Seq a b => min_length a + min_length b
  | Opt _ => 0
  end.

(** The pattern has no word boundary: whether it matches does not depend
    on what precedes the match. *)
Fixpoint wordb_free (r : regex) : bool :=
  match r with
  | Eps => true
  | WordB => false
  | Set_ _ _ _ => true
  | Seq a b => wordb_free a && wordb_free b
  | Opt a => wordb_free a
  end.

(** A text with a name the recognizer reports and a number. *)
Definition call_text : str := lit "Call Ada Lovelace on 555-123-4567".

Definition call_names : list Span := [a_span "PERSON" "Ada Lovelace" 5 17].

Definition call_entities : list Entity :=
  [an_entity "PERSON" "Ada Lovelace" 5 17 "spacy" "en";
   an_entity "PHONE" "555-123-4567" 21 33 "regex" "en"].

(** Three digits in a row somewhere in the string. *)
Definition has_digit_run (w : str) : Prop :=
  exists pre d1 d2 d3 post,
    w = pre ++ d1 :: d2 :: d3 :: post /\
    isdecimal_char d1 = true /\ isdecimal_char d2 = true /\
    isdecimal_char d3 = true.

(** The entities of the matches of the PHONE pattern, in text order. *)
Definition phone_entities (text language : str) : list Entity :=
  regex_entity text language (lit "PHONE") <$> finditer true phone_pattern text.

(** A sentence with a social security number, a card and a passport. *)
Definition papers_text : str :=
  lit "SSN 123-45-6789, card 4111 1111 1111 1111, passport AB1234567".

Definition papers_entities : list Entity :=
  [an_entity "PHONE" "123-45-6789" 4 15 "regex" "en";
   an_entity "PHONE" "4111 1111 1111" 22 36 "regex" "en";
   an_entity "PHONE" "1111" 37 41 "regex" "en";
   an_entity "PHONE" "1234567" 54 61 "regex" "en"].

(** ** [chatbot_api/chatbot.py]: the display of tool results *)

Definition newline : ascii := "010"%char.

(** [sep.join(parts)] *)
Fixpoint join (sep : str) (parts : list str) : str :=
  match parts with
  | [] => []
  | p :: rest =>
      match rest with
      | [] => p
      | _ => p ++ sep ++ join sep rest
      end
  end.

(** [l[:k]] for an integer [k]: a negative [k] counts from the end. *)
Definition slice_to {A} (k : Z) (l : list A) : list A :=
  if (0 <=? k)%Z then take (Z.to_nat k) l
  else take (length l - Z.to_nat (- k)%Z) l.

(** [str(n)] for an integer [n] *)
Definition str_of_int (n : Z) : str :=
  lit (NilZero.string_of_int (Z.to_int n)).

(** The text [truncate_content] appends for [omitted] lines left out. *)
Definition truncation_notice (omitted : Z) : str :=
  [newline; newline]
  ++ lit "[yellow]... [content truncated - "
  ++ str_of_int omitted
  ++ lit " lines omitted][/yellow]".

Definition truncate_content (content : str) (max_lines : Z) : str :=
  let lines := split newline content in
  if (Z.of_nat (length lines) <=? max_lines)%Z then content
  else
    let truncated := join [newline] (slice_to max_lines lines) in
    truncated ++ truncation_notice (Z.of_nat (length lines) - max_lines)%Z.

(** Three lines, to be cut after the second. *)
Definition clauses_text : str :=
  lit "Article 1" ++ [newline] ++ lit "Article 2" ++ [newline] ++ lit "Article 3".

(** ** [chatbot_api/chatbot.py]: the retrieval tool and the entry point

    The vector store and the agent are external, like the services of the
    detector; the metadata of a document is left abstract, [str_of_meta]
    being what [str] makes of it.  What the functions print on the console
    is not part of the model. *)

(** A document of the vector store. *)
Record Document (Meta : Type) := mkDocument {
  page_content : str;
  metadata : Meta
}.
Arguments mkDocument {Meta} _ _.
Arguments page_content {Meta} _.
Arguments metadata {Meta} _.

(** An element of [processed_docs]. *)
Record ProcessedDoc (Meta : Type) := mkProcessedDoc {
  original_content : str;
  safe_content : str;
  pii_detected : list Entity;
  pd_metadata : Meta
}.
Arguments mkProcessedDoc {Meta} _ _ _ _.
Arguments original_content {Meta} _.
Arguments safe_content {Meta} _.
Arguments pii_detected {Meta} _.
Arguments pd_metadata {Meta} _.

Inductive chat_call :=
| DetectorCall (c : call)                     (* a call made by the detector *)
| SimilaritySearch (query : str) (k : nat)    (* similarity_search(query, k=k) *)
| CreateAgent (activate_pii_detector : bool)  (* create_agent_with_pii_option(...) *)
| AgentStream (content : str).                (* agent.stream(...) on a user message *)

(** Computations of [chatbot.py]. *)
Definition Chat (A : Type) : Type :=
  list chat_call -> result A * list chat_call.

Definition chat_ret {A} (a : A) : Chat A := fun tr => (Ok a, tr).

Definition chat_bind {A B} (m : Chat A) (f : A -> Chat B) : Chat B :=
  fun tr =>
    match m tr with
    | (Ok a, tr') => f a tr'
    | (Raise e, tr') => (Raise e, tr')
    end.

Notation "'let+' x ':=' m 'in' k" := (chat_bind m (fun x => k))
  (at level 10, x name, m at level 100, k at level 200).

(** An operation of the detector run from the tool: its calls enter the
    trace of the tool. *)
Definition run_detector {A} (m : M A) : Chat A :=
  fun tr => (fst (m []), tr ++ (DetectorCall <$> snd (m []))).

Section RetrieveContext.

Variable llm : str -> result str.
Variable nlp_en nlp_fr : str -> result (list Span).
Variable Meta : Type.
(** [str(doc.metadata)] *)
Variable str_of_meta : Meta -> str.
(** [legal_vector_store.similarity_search] *)
Variable similarity_search : str -> nat -> result (list (Document Meta)).

(** One iteration of the loop over [retrieved_docs]. *)
Definition process_doc (activate_pii_detector : bool) (doc : Document Meta)
    : Chat (ProcessedDoc Meta) :=
  if activate_pii_detector then
    let+ redacted :=
      run_detector (redact_pii llm nlp_en nlp_fr (page_content doc) (lit "redact")) in
    chat_ret {| original_content := page_content doc;
                safe_content := fst redacted;
                pii_detected := snd redacted;
                pd_metadata := metadata doc |}
  else
    chat_ret {| original_content := page_content doc;
                safe_content := page_content doc;
                pii_detected := [];
                pd_metadata := metadata doc |}.

Fixpoint process_docs (activate_pii_detector : bool)
    (retrieved_docs : list (Document Meta)) : Chat (list (ProcessedDoc Meta)) :=
  match retrieved_docs with
  | [] => chat_ret []
  | doc :: rest =>
      let+ processed := process_doc activate_pii_detector doc in
      let+ processed_docs := process_docs activate_pii_detector rest in
      chat_ret (processed :: processed_docs)
  end.

(** The text handed to the language model for one document. *)
Definition serialize_doc (doc : ProcessedDoc Meta) : str :=
  lit "Source: " ++ str_of_meta (pd_metadata doc)
  ++ [newline] ++ lit "Content: " ++ safe_content doc.

Definition serialize (processed_docs : list (ProcessedDoc Meta)) : str :=
  join [newline; newline] (serialize_doc <$> processed_docs).

Definition retrieve_context (activate_pii_detector : bool) (query : str)
    : Chat (str * list (ProcessedDoc Meta)) :=
  let+ safe_query :=
    (if activate_pii_detector then
       let+ redacted :=
         run_detector (redact_pii llm nlp_en nlp_fr query (lit "redact")) in
       chat_ret (fst redacted)
     else chat_ret query) in
  let+ retrieved_docs :=
    (fun tr => (similarity_search safe_query 2,
                tr ++ [SimilaritySearch safe_query 2])) in
  let+ processed_docs := process_docs activate_pii_detector retrieved_docs in
  chat_ret (serialize processed_docs, processed_docs).

End RetrieveContext.

Section AnswerQuery.

Variable llm : str -> result str.
Variable nlp_en nlp_fr : str -> result (list Span).
(** [create_agent_with_pii_option]: it returns an agent or raises. *)
Variable create_agent_with_pii_option : bool -> result unit.
(** The loop over [agent.stream(...)] that prints every event. *)
Variable stream_and_print : bool -> str -> result unit.


End AnswerQuery.


(** What fast mode makes of a document. *)
Definition unprotected {Meta} (doc : Document Meta) : ProcessedDoc Meta :=
  {| original_content := page_content doc;
     safe_content := page_content doc;
     pii_detected := [];
     pd_metadata := metadata doc |}.

(** The calls of the tool that are searches of the vector store. *)
Definition searches (tr : list chat_call) : list (str * nat) :=
  omap (fun c => match c with
                 | SimilaritySearch query k => Some (query, k)
                 | _ => None
                 end) tr.

(** A store with one contract, found whatever the query. *)
Definition contract_store : str -> nat -> result (list (Document str)) :=
  fun _ _ => Ok [mkDocument (lit "Signed by John Smith") (lit "contract.pdf")].

Definition who_signed : str := lit "Did John Smith sign?".

Definition signer (text : str) : result (list Span) :=
  if str_eqb text who_signed then Ok [a_span "PERSON" "John Smith" 4 14]
  else Ok [a_span "PERSON" "John Smith" 10 20].

(** A message that names a person whose address holds digits. *)
Definition mail_text : str := lit "Write to Ada at ada1815@math.org".

Definition mail_names : list Span := [a_span "PERSON" "Ada" 9 12].





(** * Properties *)

(** ** Sorting *)

Section SortedFacts.
Context {A : Type} (key : A -> nat).

Lemma insert_by_perm before (x : A) l :
  insert_by key before x l ≡ₚ x :: l.
Proof.
  induction l as [|y l IH]; simpl; [done|].
  destruct (before (key x) (key y)); [done|].
  rewrite IH. apply Permutation_swap.
Qed.

Lemma sorted_perm (l : list A) : sorted key l ≡ₚ l.
Proof.
  induction l as [|x l IH]; simpl; [done|].
  unfold sorted in IH. by rewrite insert_by_perm, IH.
Qed.

Lemma sorted_reverse_perm (l : list A) : sorted_reverse key l ≡ₚ l.
Proof.
  induction l as [|x l IH]; simpl; [done|].
  unfold sorted_reverse in IH. by rewrite insert_by_perm, IH.
Qed.

Lemma insert_ascending x l :
  StronglySorted (ascending key) l ->
  StronglySorted (ascending key) (insert_by key Nat.leb x l).
Proof.
  induction 1 as [|y l Hl IH Hy]; simpl.
  - repeat constructor.
  - destruct (Nat.leb_spec (key x) (key y)) as [Hle|Hlt].
    + constructor; [by constructor|].
      constructor; [done|].
      eapply Forall_impl; [exact Hy|]. unfold ascending. intros; lia.
    + constructor; [done|].
      rewrite insert_by_perm. constructor; [|done].
      unfold ascending. lia.
Qed.

Lemma insert_descending x l :
  StronglySorted (descending key) l ->
  StronglySorted (descending key) (insert_by key (fun a b => b <=? a) x l).
Proof.
  induction 1 as [|y l Hl IH Hy]; simpl.
  - repeat constructor.
  - destruct (Nat.leb_spec (key y) (key x)) as [Hle|Hlt].
    + constructor; [by constructor|].
      constructor; [done|].
      eapply Forall_impl; [exact Hy|]. unfold descending. intros; lia.
    + constructor; [done|].
      rewrite insert_by_perm. constructor; [|done].
      unfold descending. lia.
Qed.

Lemma sorted_ascending (l : list A) : StronglySorted (ascending key) (sorted key l).
Proof.
  induction l as [|x l IH]; simpl; [constructor|].
  by apply insert_ascending.
Qed.

Lemma sorted_reverse_descending (l : list A) :
  StronglySorted (descending key) (sorted_reverse key l).
Proof.
  induction l as [|x l IH]; simpl; [constructor|].
  by apply insert_descending.
Qed.

(** Inserting a key smaller than all the others puts it last. *)
Lemma insert_descending_last x l :
  Forall (fun y => key x < key y) l ->
  insert_by key (fun a b => b <=? a) x l = l ++ [x].
Proof.
  induction 1 as [|y l Hy Hl IH]; simpl; [done|].
  destruct (Nat.leb_spec (key y) (key x)); [lia|]. by rewrite IH.
Qed.

(** On a list with strictly increasing keys [reverse=True] is [reversed]. *)
Lemma sorted_reverse_increasing (l : list A) :
  StronglySorted (fun a b => key a < key b) l ->
  sorted_reverse key l = rev l.
Proof.
  induction 1 as [|x l Hl IH Hx]; simpl; [done|].
  fold (sorted_reverse key l). rewrite IH.
  apply insert_descending_last.
  apply Forall_forall. intros y Hy.
  apply list_elem_of_In, in_rev, list_elem_of_In in Hy.
  by apply (proj1 (Forall_forall _ _) Hx).
Qed.

(** The first element processed has the greatest key. *)
Lemma sorted_reverse_head (l : list A) :
  l <> [] ->
  exists x rest,
    sorted_reverse key l = x :: rest /\ x ∈ l /\
    forall y, y ∈ l -> key y <= key x.
Proof.
  intros Hne.
  pose proof (sorted_reverse_perm l) as Hp.
  pose proof (sorted_reverse_descending l) as Hs.
  destruct (sorted_reverse key l) as [|x rest] eqn:E.
  - apply Permutation_nil_l in Hp. done.
  - exists x, rest. split; [done|]. split.
    + rewrite <- Hp. left.
    + intros y Hy. rewrite <- Hp in Hy.
      apply StronglySorted_inv in Hs as [_ Hx].
      apply elem_of_cons in Hy as [->|Hy]; [lia|].
      by apply (proj1 (Forall_forall _ _) Hx).
Qed.
End SortedFacts.

(** ** Lists whose elements are pairwise related *)

Section Pairwise.
Context {A : Type} (R : A -> A -> Prop).
Hypothesis R_sym : forall a b, R a b -> R b a.

Lemma pairwise_snoc l c :
  ForallOrdPairs R l -> Forall (fun x => R x c) l ->
  ForallOrdPairs R (l ++ [c]).
Proof.
  induction 1 as [|a l Ha Hl IH]; intros Hc; simpl.
  - repeat constructor.
  - apply Forall_cons in Hc as [Hac Hc]. constructor.
    + apply Forall_app. split; [done|]. by constructor.
    + by apply IH.
Qed.

Lemma pairwise_sublist l1 l2 :
  l1 `sublist_of` l2 -> ForallOrdPairs R l2 -> ForallOrdPairs R l1.
Proof.
  induction 1 as [|x l1 l2 Hsub IH|x l1 l2 Hsub IH]; intros H2.
  - constructor.
  - inversion H2 as [|? ? Hx Hl2]; subst. constructor; [|by apply IH].
    apply Forall_forall. intros y Hy.
    apply (proj1 (Forall_forall _ _) Hx). by eapply elem_of_sublist.
  - inversion H2; subst. by apply IH.
Qed.

Lemma pairwise_perm l1 l2 :
  l1 ≡ₚ l2 -> ForallOrdPairs R l1 -> ForallOrdPairs R l2.
Proof.
  induction 1 as [|x l1 l2 Hp IH|x y l|l1 l2 l3 _ IH1 _ IH2]; intros H1.
  - constructor.
  - inversion H1 as [|? ? Hx Hl]; subst.
    constructor; [by rewrite <- Hp | by apply IH].
  - inversion H1 as [|? ? Hy Hl]; subst.
    inversion Hl as [|? ? Hx Hl']; subst.
    apply Forall_cons in Hy as [Hyx Hy].
    constructor; [constructor; [by apply R_sym | done]|].
    by constructor.
  - by apply IH2, IH1.
Qed.

Lemma pairwise_elem_of l a b :
  ForallOrdPairs R l -> a ∈ l -> b ∈ l -> a = b \/ R a b.
Proof.
  intros Hl Ha Hb.
  apply list_elem_of_In in Ha, Hb.
  destruct (ForallOrdPairs_In Hl a b Ha Hb) as [?|[?|?]]; auto.
Qed.
End Pairwise.

(** ** The overlap test and disjoint spans *)

Lemma spans_disjoint_sym a b : spans_disjoint a b -> spans_disjoint b a.
Proof. unfold spans_disjoint. lia. Qed.

Lemma intersects_false m_start m_end entity :
  intersects m_start m_end entity = false <->
  m_end <= e_start entity \/ e_end entity <= m_start.
Proof.
  unfold intersects. rewrite negb_false_iff, orb_true_iff, !Nat.leb_le. done.
Qed.

Lemma overlap_false m_start m_end entities :
  overlap m_start m_end entities = false <->
  Forall (fun entity => intersects m_start m_end entity = false) entities.
Proof.
  unfold overlap. induction entities as [|x l IH]; simpl.
  - split; [constructor | done].
  - rewrite orb_false_iff, IH, Forall_cons. done.
Qed.

(** ** Deduplication *)

Lemma unique_loop_elem_of seen l x :
  x ∈ unique_loop seen l -> x ∈ l /\ entity_key x ∉ seen.
Proof.
  revert seen. induction l as [|y l IH]; intros seen; simpl.
  - by intros ?%elem_of_nil.
  - case_bool_decide as Hy.
    + intros Hx. destruct (IH _ Hx). split; [by right | done].
    + intros [->|Hx]%elem_of_cons; [split; [left | done]|].
      destruct (IH _ Hx) as [? Hseen]. split; [by right | set_solver].
Qed.

Lemma unique_loop_sublist seen l : unique_loop seen l `sublist_of` l.
Proof.
  revert seen. induction l as [|y l IH]; intros seen; simpl; [done|].
  case_bool_decide; [by apply sublist_cons | by apply sublist_skip].
Qed.

Lemma unique_loop_NoDup seen l : NoDup (entity_key <$> unique_loop seen l).
Proof.
  revert seen. induction l as [|y l IH]; intros seen; simpl; [constructor|].
  case_bool_decide as Hy; [done|].
  rewrite fmap_cons. constructor; [|done].
  intros Hin. apply list_elem_of_fmap in Hin as (x & Hk & Hx).
  apply unique_loop_elem_of in Hx as [_ Hx].
  apply Hx. rewrite <- Hk. apply elem_of_union_l. by apply elem_of_singleton.
Qed.

(** Every key of the input, if not yet seen, keeps a representative. *)
Lemma unique_loop_covers seen l x :
  x ∈ l -> entity_key x ∉ seen ->
  exists x0, x0 ∈ unique_loop seen l /\ entity_key x0 = entity_key x.
Proof.
  revert seen. induction l as [|y l IH]; intros seen Hx Hseen; simpl.
  - by apply elem_of_nil in Hx.
  - apply elem_of_cons in Hx as [->|Hx].
    + rewrite bool_decide_eq_false_2 by done. exists y. split; [left | done].
    + case_bool_decide as Hy.
      * by apply IH.
      * destruct (decide (entity_key x = entity_key y)) as [Heq|Hne].
        -- exists y. split; [left | done].
        -- destruct (IH ({[entity_key y]} ∪ seen) Hx) as (x0 & ? & ?);
             [set_solver|].
           exists x0. split; [by right | done].
Qed.

Lemma unique_loop_app seen l1 l2 :
  unique_loop seen (l1 ++ l2) =
  unique_loop seen l1
  ++ unique_loop (list_to_set (entity_key <$> l1) ∪ seen) l2.
Proof.
  revert seen. induction l1 as [|y l1 IH]; intros seen; simpl.
  - f_equal. set_solver.
  - case_bool_decide as Hy.
    + rewrite IH. do 2 f_equal. set_solver.
    + simpl. rewrite IH. do 3 f_equal. set_solver.
Qed.

(** ** The loop over the patterns *)

Lemma regex_loop_candidates text language entities :
  regex_loop text language entities =
  foldl (add_candidate text language) entities (pattern_matches text).
Proof.
  unfold regex_loop, pattern_matches.
  generalize regex_patterns. intros ps. revert entities.
  induction ps as [|p ps IH]; intros entities; simpl; [done|].
  rewrite foldl_app, IH. f_equal.
  unfold add_pattern. generalize (finditer true p.2 text). intros ms.
  revert entities. induction ms as [|m ms IHm]; intros entities; simpl; [done|].
  by rewrite IHm.
Qed.

Lemma add_candidates_spec text language cands entities :
  exists added,
    foldl (add_candidate text language) entities cands = entities ++ added /\
    Forall (fun x => exists c, c ∈ cands /\ x = candidate_entity text language c /\
                     overlap (fst (snd c)) (snd (snd c)) entities = false) added /\
    (pairwise_disjoint entities -> pairwise_disjoint (entities ++ added)).
Proof.
  revert entities. induction cands as [|c cands IH]; intros entities; simpl.
  - exists []. rewrite app_nil_r. split; [done|]. split; [constructor | done].
  - unfold add_candidate at 2, add_match.
    destruct (overlap (snd c).1 (snd c).2 entities) eqn:Hov.
    + destruct (IH entities) as (added & Heq & Hadded & Hdis).
      exists added. split; [done|]. split; [|done].
      eapply Forall_impl; [exact Hadded|]. simpl.
      intros x (c' & ? & ? & ?). exists c'. split; [by right | done].
    + destruct (IH (entities ++ [regex_entity text language (fst c) (snd c)]))
        as (added & Heq & Hadded & Hdis).
      exists (regex_entity text language (fst c) (snd c) :: added).
      split; [by rewrite Heq, <- app_assoc|]. split.
      * constructor.
        -- exists c. split; [left | done].
        -- eapply Forall_impl; [exact Hadded|]. simpl.
           intros x (c' & ? & ? & Hc'). exists c'. split; [by right|].
           split; [done|].
           apply overlap_false. apply overlap_false in Hc'.
           by apply Forall_app in Hc' as [? _].
      * intros Hent. rewrite cons_middle, app_assoc. apply Hdis.
        apply pairwise_snoc; [done|].
        apply overlap_false in Hov.
        eapply Forall_impl; [exact Hov|]. simpl.
        intros y Hy%intersects_false. unfold spans_disjoint. simpl. lia.
Qed.

(** ** One run of detection *)

Section Detection.
Variable llm : str -> result str.
Variable nlp_en nlp_fr : str -> result (list Span).

Lemma detect_unfold text tr :
  detect_pii_entities llm nlp_en nlp_fr text tr =
  if is_blank text then (Ok [], tr)
  else match llm text with
       | Raise e => (Raise e, tr ++ [CallLanguageModel text])
       | Ok language =>
           match selected_nlp nlp_en nlp_fr language text with
           | Raise e =>
               (Raise e, tr ++ [CallLanguageModel text; selected_call language text])
           | Ok ents =>
               (Ok (aggregate text language ents),
                tr ++ [CallLanguageModel text; selected_call language text])
           end
       end.
Proof.
  unfold detect_pii_entities, is_blank.
  destruct (negb (truthy text) || negb (truthy (strip text))); [done|].
  unfold bind, detect_language, external, ret.
  destruct (llm text) as [language|e]; [|done].
  unfold selected_nlp, selected_call, aggregate, selected_labels.
  destruct (str_eqb language (lit "en")).
  - destruct (nlp_en text); simpl; by rewrite <- app_assoc.
  - destruct (nlp_fr text); simpl; by rewrite <- app_assoc.
Qed.

(** The result of detection does not depend on the trace, and the trace
    only grows. *)
Lemma detect_trace text tr :
  detect_pii_entities llm nlp_en nlp_fr text tr =
  (fst (detect_pii_entities llm nlp_en nlp_fr text []),
   tr ++ detection_calls llm nlp_en nlp_fr text).
Proof.
  unfold detection_calls. rewrite !detect_unfold.
  destruct (is_blank text); simpl; [by rewrite app_nil_r|].
  destruct (llm text) as [language|e]; [|done].
  by destruct (selected_nlp nlp_en nlp_fr language text).
Qed.

(** Whatever detection returns is the aggregate of some language code and
    some spans, or the empty list of a blank text. *)
Lemma detect_Ok_inv text tr out tr' :
  detect_pii_entities llm nlp_en nlp_fr text tr = (Ok out, tr') ->
  (is_blank text = true /\ out = [] /\ tr' = tr) \/
  (is_blank text = false /\
   exists language ents,
     llm text = Ok language /\
     selected_nlp nlp_en nlp_fr language text = Ok ents /\
     out = aggregate text language ents /\
     tr' = tr ++ [CallLanguageModel text; selected_call language text]).
Proof.
  rewrite detect_unfold. destruct (is_blank text).
  - intros [= <- <-]. by left.
  - destruct (llm text) as [language|e]; [|done].
    destruct (selected_nlp nlp_en nlp_fr language text) as [ents|e] eqn:E; [|done].
    intros [= <- <-]. right. split; [done|]. by exists language, ents.
Qed.
End Detection.

(** ** Invariants of the returned entity list *)

Lemma aggregate_sorted text language ents :
  StronglySorted (ascending e_start) (aggregate text language ents).
Proof. apply sorted_ascending. Qed.

Lemma aggregate_NoDup text language ents :
  NoDup (entity_key <$> aggregate text language ents).
Proof.
  unfold aggregate. rewrite sorted_perm. apply unique_loop_NoDup.
Qed.

Lemma aggregate_disjoint text language ents :
  pairwise_disjoint (spacy_entities language (selected_labels language) ents) ->
  pairwise_disjoint (aggregate text language ents).
Proof.
  intros Hner. unfold aggregate, pairwise_disjoint.
  eapply pairwise_perm; [apply spans_disjoint_sym | symmetry; apply sorted_perm |].
  eapply pairwise_sublist; [apply unique_loop_sublist|].
  rewrite regex_loop_candidates.
  destruct (add_candidates_spec text language (pattern_matches text)
              (spacy_entities language (selected_labels language) ents))
    as (added & -> & _ & Hdis).
  by apply Hdis.
Qed.

(** C1 (as the code has it): the list [detect_pii] returns is sorted by
    [start] and holds no two entities with the same [(text, start, end)];
    its spans are pairwise disjoint provided the spans the recognizer
    reported and the filter kept are pairwise disjoint. *)
Theorem detect_pii_sorted_unique_disjoint
    (llm : str -> result str) (nlp_en nlp_fr : str -> result (list Span))
    (text : str) (tr tr' : list call) (out : list Entity) :
  detect_pii llm nlp_en nlp_fr text tr = (Ok out, tr') ->
  StronglySorted (ascending e_start) out /\
  NoDup (entity_key <$> out) /\
  ((forall language ents,
      llm text = Ok language ->
      selected_nlp nlp_en nlp_fr language text = Ok ents ->
      pairwise_disjoint (spacy_entities language (selected_labels language) ents)) ->
   pairwise_disjoint out).
Proof.
  intros Hrun. apply detect_Ok_inv in Hrun
    as [(_ & -> & _)|(_ & language & ents & Hllm & Hnlp & -> & _)].
  - split; [constructor|]. split; [constructor|]. intros _. constructor.
  - split; [apply aggregate_sorted|]. split; [apply aggregate_NoDup|].
    intros Hner. apply aggregate_disjoint. by apply Hner.
Qed.

Lemma detect_pii_sorted_unique_disjoint_witness :
  StronglySorted (ascending e_start) contact_entities /\
  NoDup (entity_key <$> contact_entities) /\
  pairwise_disjoint contact_entities.
Proof.
  assert (Hrun : detect_pii (says "en") (finds contact_names) (finds [])
                   contact_text [] =
                 (Ok contact_entities,
                  [CallLanguageModel contact_text; CallNlpEn contact_text]))
    by (vm_compute; reflexivity).
  destruct (detect_pii_sorted_unique_disjoint _ _ _ _ _ _ _ Hrun)
    as (Hs & Hn & Hd).
  split; [exact Hs|]. split; [exact Hn|]. apply Hd.
  intros language ents [= <-] [= <-]. vm_compute. repeat constructor.
Defined.

(** C1 (as stated) fails: a recognizer that reports overlapping spans gets
    both of them returned. *)
Lemma detect_pii_disjoint_counterexample :
  ~ (forall (llm : str -> result str) (nlp_en nlp_fr : str -> result (list Span))
       (text : str) (tr tr' : list call) (out : list Entity),
       detect_pii llm nlp_en nlp_fr text tr = (Ok out, tr') ->
       StronglySorted (ascending e_start) out /\
       pairwise_disjoint out /\
       NoDup (entity_key <$> out)).
Proof.
  intros H.
  assert (Hrun : detect_pii (says "en") (finds nested_names) (finds [])
                   (lit "John Smith") [] =
                 (Ok [an_entity "PERSON" "John Smith" 0 10 "spacy" "en";
                      an_entity "PERSON" "Smith" 5 10 "spacy" "en"],
                  [CallLanguageModel (lit "John Smith");
                   CallNlpEn (lit "John Smith")]))
    by (vm_compute; reflexivity).
  destruct (H _ _ _ _ _ _ _ Hrun) as (_ & Hd & _).
  inversion Hd as [|? ? Hf _]; subst.
  inversion Hf as [|? ? Hab _]; subst.
  unfold spans_disjoint in Hab. simpl in Hab. lia.
Qed.

(** ** Overlap resolution *)

Lemma spacy_entities_elem_of language labels ents e :
  e ∈ spacy_entities language labels ents <->
  exists ent, ent ∈ ents /\ keep_ent labels ent = true /\
              e = spacy_entity language ent.
Proof.
  unfold spacy_entities. rewrite list_elem_of_fmap.
  split.
  - intros (ent & -> & [? ?]%list_elem_of_filter). by exists ent.
  - intros (ent & ? & ? & ->). exists ent. split; [done|].
    by apply list_elem_of_filter.
Qed.

Lemma selected_labels_single language a b :
  a ∈ selected_labels language -> b ∈ selected_labels language -> a = b.
Proof.
  unfold selected_labels, sensitive_labels_en, sensitive_labels_fr.
  destruct (str_eqb language (lit "en"));
    intros ->%elem_of_singleton ->%elem_of_singleton; done.
Qed.

Lemma keep_ent_label labels ent :
  keep_ent labels ent = true -> label_ ent ∈ labels.
Proof.
  unfold keep_ent. rewrite !andb_true_iff.
  intros [[H _] _]. by apply bool_decide_eq_true in H.
Qed.

(** Two kept recognizer entities with the same key are the same entity:
    the set of sensitive labels has one element. *)
Lemma spacy_entities_key_inj (language : str) (labels : gset str) ents a b :
  (forall x y, x ∈ labels -> y ∈ labels -> x = y) ->
  a ∈ spacy_entities language labels ents ->
  b ∈ spacy_entities language labels ents ->
  entity_key a = entity_key b -> a = b.
Proof.
  intros Hsingle (ea & _ & Ha & ->)%spacy_entities_elem_of
         (eb & _ & Hb & ->)%spacy_entities_elem_of.
  apply keep_ent_label in Ha, Hb.
  pose proof (Hsingle _ _ Ha Hb) as Hl.
  unfold entity_key, spacy_entity. simpl. intros [= ? ? ?].
  destruct ea, eb; simpl in *; by subst.
Qed.

Lemma unique_entities_keeps_kept (language : str) (labels : gset str) ents added e :
  (forall x y, x ∈ labels -> y ∈ labels -> x = y) ->
  e ∈ spacy_entities language labels ents ->
  e ∈ unique_entities (spacy_entities language labels ents ++ added).
Proof.
  intros Hsingle He. unfold unique_entities. rewrite unique_loop_app.
  apply elem_of_app. left.
  destruct (unique_loop_covers ∅ _ e He) as (e0 & He0 & Hk);
    [apply not_elem_of_empty|].
  pose proof (unique_loop_elem_of _ _ _ He0) as [He0' _].
  by rewrite <- (spacy_entities_key_inj _ _ _ _ _ Hsingle He0' He Hk).
Qed.

(** The entities of the result that come from the recognizer are the kept
    spans. *)
Lemma spacy_part_of_result (text language : str) (labels : gset str) ents e :
  (forall x y, x ∈ labels -> y ∈ labels -> x = y) ->
  e ∈ sorted e_start
        (unique_entities
           (regex_loop text language (spacy_entities language labels ents)))
  /\ e_source e = lit "spacy" <->
  e ∈ spacy_entities language labels ents.
Proof.
  intros Hsingle. rewrite sorted_perm, regex_loop_candidates.
  destruct (add_candidates_spec text language (pattern_matches text)
              (spacy_entities language labels ents))
    as (added & -> & Hadded & _).
  split.
  - intros [[Hin _]%unique_loop_elem_of Hsrc].
    apply elem_of_app in Hin as [Hin|Hin]; [done|].
    apply (proj1 (Forall_forall _ _) Hadded) in Hin as (c & _ & -> & _).
    discriminate Hsrc.
  - intros He. split; [by apply unique_entities_keeps_kept|].
    by apply spacy_entities_elem_of in He as (ent & _ & _ & ->).
Qed.

Lemma accepted_grows text language cs entities :
  exists later,
    foldl (add_candidate text language) entities cs = entities ++ later.
Proof.
  destruct (add_candidates_spec text language cs entities) as (added & ? & _).
  by exists added.
Qed.

(** C2: the candidates of the patterns are visited in declaration order,
    each one is tested against the entities accepted so far, starting from
    the recognizer's kept spans; an intersecting candidate is dropped and
    nothing accepted is ever removed, so every kept recognizer span is
    returned and no pattern match that intersects one is. *)
Theorem regex_candidates_yield_to_recognizer
    (llm : str -> result str) (nlp_en nlp_fr : str -> result (list Span))
    (text language : str) (ents : list Span) (tr : list call) :
  is_blank text = false ->
  llm text = Ok language ->
  selected_nlp nlp_en nlp_fr language text = Ok ents ->
  let kept := spacy_entities language (selected_labels language) ents in
  let accepted := foldl (add_candidate text language) kept in
  exists out,
    fst (detect_pii_entities llm nlp_en nlp_fr text tr) = Ok out /\
    out = sorted e_start (unique_entities (accepted (pattern_matches text))) /\
    fst <$> regex_patterns =
      [lit "EMAIL"; lit "PHONE"; lit "SSN"; lit "CREDIT_CARD";
       lit "FRENCH_SSN"; lit "PASSPORT"] /\
    pattern_matches text =
      concat ((fun p => pair (fst p) <$> finditer true (snd p) text)
              <$> regex_patterns) /\
    (forall cs1 c cs2,
       pattern_matches text = cs1 ++ c :: cs2 ->
       accepted (cs1 ++ [c]) =
       if overlap (fst (snd c)) (snd (snd c)) (accepted cs1)
       then accepted cs1
       else accepted cs1 ++ [candidate_entity text language c]) /\
    (forall cs1 cs2,
       pattern_matches text = cs1 ++ cs2 ->
       exists later, accepted (cs1 ++ cs2) = accepted cs1 ++ later) /\
    (forall e, e ∈ kept -> e ∈ out) /\
    (forall c e,
       c ∈ pattern_matches text -> e ∈ kept ->
       intersects (fst (snd c)) (snd (snd c)) e = true ->
       candidate_entity text language c ∉ out).
Proof.
  intros Hblank Hllm Hnlp kept accepted. subst accepted kept. cbv beta.
  set (kept := spacy_entities language (selected_labels language) ents).
  exists (aggregate text language ents).
  split; [by rewrite detect_unfold, Hblank, Hllm, Hnlp|].
  split; [unfold aggregate; by rewrite regex_loop_candidates|].
  split; [reflexivity|]. split; [reflexivity|].
  split; [|split; [|split]].
  - intros cs1 c cs2 _. by rewrite foldl_app.
  - intros cs1 cs2 _. rewrite foldl_app. apply accepted_grows.
  - intros e He. unfold aggregate. rewrite sorted_perm, regex_loop_candidates.
    fold kept. destruct (accepted_grows text language (pattern_matches text) kept)
      as (added & ->).
    apply unique_entities_keeps_kept; [apply selected_labels_single | done].
  - intros c e Hc He Hce Hout. unfold aggregate in Hout.
    rewrite sorted_perm, regex_loop_candidates in Hout.
    apply unique_loop_elem_of in Hout as [Hout _]. fold kept in Hout.
    destruct (add_candidates_spec text language (pattern_matches text) kept)
      as (added & Heq & Hadded & _).
    rewrite Heq in Hout. apply elem_of_app in Hout as [Hin|Hin].
    + apply spacy_entities_elem_of in Hin as (ent & _ & _ & Heq').
      apply (f_equal e_source) in Heq'. discriminate Heq'.
    + apply (proj1 (Forall_forall _ _) Hadded) in Hin as (c' & _ & Hcc' & Hov).
      assert (Hs : fst (snd c) = fst (snd c'))
        by exact (f_equal e_start Hcc').
      assert (He' : snd (snd c) = snd (snd c'))
        by exact (f_equal e_end Hcc').
      rewrite <- Hs, <- He' in Hov. apply overlap_false in Hov.
      apply (proj1 (Forall_forall _ _) Hov) in He. congruence.
Qed.

Lemma regex_candidates_yield_to_recognizer_witness :
  fst (detect_pii_entities (says "en") (finds agent_names) (finds [])
         agent_text []) = Ok agent_entities /\
  an_entity "PERSON" "Agent 007 Bond" 0 14 "spacy" "en" ∈ agent_entities /\
  an_entity "PHONE" "007" 6 9 "regex" "en" ∉ agent_entities.
Proof.
  destruct (regex_candidates_yield_to_recognizer
              (says "en") (finds agent_names) (finds [])
              agent_text (lit "en") agent_names []
              eq_refl eq_refl eq_refl)
    as (out & Hrun & Hout & _ & _ & _ & _ & Hkept & Hdrop).
  assert (Hval : out = agent_entities)
    by (rewrite Hout; vm_compute; reflexivity).
  rewrite Hval in *. split; [exact Hrun|]. split.
  - apply Hkept. vm_compute. left.
  - apply (Hdrop (lit "PHONE", (6, 9))
                 (an_entity "PERSON" "Agent 007 Bond" 0 14 "spacy" "en")).
    + vm_compute. left.
    + vm_compute. left.
    + reflexivity.
Defined.

(** ** Redaction *)

Lemma split_nonempty sep s : exists p ps, split sep s = p :: ps.
Proof.
  induction s as [|c s (p & ps & IH)]; simpl; [by eexists _, _|].
  destruct (Ascii.eqb c sep); [by eexists _, _|].
  rewrite IH. by eexists _, _.
Qed.

Lemma split_contains sep s :
  contains sep s = true -> exists p0 p1 rest, split sep s = p0 :: p1 :: rest.
Proof.
  unfold contains. induction s as [|c s IH]; simpl; [done|].
  rewrite (Ascii.eqb_sym sep c). destruct (Ascii.eqb c sep); simpl.
  - intros _. destruct (split_nonempty sep s) as (p & ps & ->).
    by eexists _, _, _.
  - intros (p0 & p1 & rest & ->)%IH. by eexists _, _, _.
Qed.

Lemma str_eqb_eq a b : str_eqb a b = true <-> a = b.
Proof. unfold str_eqb. apply bool_decide_eq_true. Qed.

Lemma str_eqb_neq a b : a <> b -> str_eqb a b = false.
Proof. unfold str_eqb. apply bool_decide_eq_false_2. Qed.

(** Only the block strategy raises. *)
Lemma get_replacement_returns entity strategy :
  strategy <> lit "block" ->
  _get_replacement entity strategy = Ok (replacement_text entity strategy).
Proof.
  intros Hblock. unfold replacement_text, _get_replacement.
  rewrite (str_eqb_neq strategy (lit "block")) by done.
  destruct (str_eqb strategy (lit "redact")); [done|].
  destruct (str_eqb strategy (lit "mask")); [|done].
  case_bool_decide; [|done].
  destruct (contains "@" (e_text entity)) eqn:Hat.
  - destruct (split_contains _ _ Hat) as (p0 & p1 & rest & ->). done.
  - by destruct (4 <? length (e_text entity)).
Qed.

Lemma redact_loop_app l1 l2 strategy redacted_text :
  redact_loop (l1 ++ l2) strategy redacted_text =
  match redact_loop l1 strategy redacted_text with
  | Ok redacted_text' => redact_loop l2 strategy redacted_text'
  | Raise e => Raise e
  end.
Proof.
  revert redacted_text. induction l1 as [|x l1 IH]; intros t; simpl; [done|].
  by destruct (_get_replacement x strategy).
Qed.

(** Processing the entities last to first is a right fold over the list. *)
Lemma redact_loop_rev strategy text entities :
  strategy <> lit "block" ->
  redact_loop (rev entities) strategy text =
  Ok (foldr (replace_span strategy) text entities).
Proof.
  intros Hblock. induction entities as [|x l IH]; simpl; [done|].
  rewrite redact_loop_app, IH. simpl.
  by rewrite get_replacement_returns.
Qed.

Lemma chained_of_sorted_disjoint text pos entities :
  Forall (fun entity => pos <= e_start entity) entities ->
  StronglySorted (ascending e_start) entities ->
  pairwise_disjoint entities ->
  Forall (valid_offsets text) entities ->
  chained text pos entities.
Proof.
  revert pos. induction entities as [|x l IH]; intros pos Hpos Hs Hd Hv;
    simpl; [done|].
  apply Forall_cons in Hpos as [Hx Hpos], Hv as [Hvx Hv].
  apply StronglySorted_inv in Hs as [Hs Hsx].
  inversion Hd as [|? ? Hdx Hd']; subst.
  split; [done|]. split; [done|]. apply IH; [|done..].
  apply Forall_forall. intros y Hy.
  pose proof (proj1 (Forall_forall _ _) Hsx y Hy) as Hxy.
  pose proof (proj1 (Forall_forall _ _) Hdx y Hy) as Hdy.
  pose proof (proj1 (Forall_forall _ _) Hv y Hy) as Hvy.
  unfold ascending, spans_disjoint, valid_offsets in *. lia.
Qed.

Lemma chained_increasing text pos entities :
  chained text pos entities ->
  Forall (fun entity => pos <= e_start entity) entities /\
  StronglySorted (fun a b => e_start a < e_start b) entities.
Proof.
  revert pos. induction entities as [|x l IH]; intros pos; simpl.
  - intros _. split; constructor.
  - intros (Hpos & [Hlt Hlen] & Hrest).
    destruct (IH _ Hrest) as [Hafter Hinc]. split.
    + constructor; [done|]. eapply Forall_impl; [exact Hafter|].
      simpl. intros; lia.
    + constructor; [done|]. eapply Forall_impl; [exact Hafter|].
      simpl. intros; lia.
Qed.

(** Back to front, the loop never touches what lies before the span it
    replaces, and what lies after is already rewritten. *)
Lemma foldr_replace_span strategy text pos entities :
  chained text pos entities ->
  foldr (replace_span strategy) text entities =
  take pos text ++ spliced strategy text pos entities.
Proof.
  revert pos. induction entities as [|x l IH]; intros pos; simpl.
  - intros _. by rewrite take_drop.
  - intros (Hpos & [Hlt Hlen] & Hrest).
    rewrite (IH _ Hrest). unfold replace_span at 1.
    rewrite take_app_le by (rewrite length_take; lia).
    rewrite take_take, Nat.min_l by lia.
    rewrite drop_app_length' by (rewrite length_take; lia).
    unfold slice. rewrite !app_assoc. do 2 f_equal.
    rewrite take_take_drop. f_equal. lia.
Qed.

(** C3: on entities sorted by [start], pairwise disjoint and with valid
    offsets, the loop of [redact_pii] visits the entities last to first and
    returns the original text with each span, and nothing else, replaced
    by what [_get_replacement] returns for it; [redact_pii] returns that
    text with the entity list. *)
Theorem redact_pii_replaces_each_span
    (llm : str -> result str) (nlp_en nlp_fr : str -> result (list Span))
    (text strategy : str) (entities : list Entity) (tr tr' : list call) :
  strategy <> lit "block" ->
  StronglySorted (ascending e_start) entities ->
  pairwise_disjoint entities ->
  Forall (valid_offsets text) entities ->
  sorted_reverse e_start entities = rev entities /\
  StronglySorted (descending e_start) (sorted_reverse e_start entities) /\
  redact_loop (sorted_reverse e_start entities) strategy text =
    Ok (spliced strategy text 0 entities) /\
  (detect_pii_entities llm nlp_en nlp_fr text tr = (Ok entities, tr') ->
   redact_pii llm nlp_en nlp_fr text strategy tr =
     (Ok (spliced strategy text 0 entities, entities), tr')).
Proof.
  intros Hblock Hs Hd Hv.
  assert (Hch : chained text 0 entities).
  { apply chained_of_sorted_disjoint; [|done..].
    apply Forall_forall. intros; lia. }
  destruct (chained_increasing _ _ _ Hch) as [_ Hinc].
  assert (Hrev : sorted_reverse e_start entities = rev entities)
    by by apply sorted_reverse_increasing.
  assert (Hloop : redact_loop (sorted_reverse e_start entities) strategy text =
                  Ok (spliced strategy text 0 entities)).
  { rewrite Hrev, redact_loop_rev by done.
    by rewrite (foldr_replace_span _ _ 0). }
  split; [done|]. split; [apply sorted_reverse_descending|].
  split; [done|].
  intros Hrun. unfold redact_pii, bind, lift, ret.
  by rewrite Hrun, Hloop.
Qed.

Lemma redact_pii_replaces_each_span_witness :
  redact_pii (says "en") (finds contact_names) (finds [])
    contact_text (lit "redact") [] =
  (Ok (lit "Contact [REDACTED_PERSON] at [REDACTED_EMAIL]", contact_entities),
   [CallLanguageModel contact_text; CallNlpEn contact_text]).
Proof.
  assert (Hs : StronglySorted (ascending e_start) contact_entities).
  { repeat constructor; unfold ascending; simpl; lia. }
  assert (Hd : pairwise_disjoint contact_entities).
  { constructor; [|repeat constructor].
    constructor; [|constructor]. unfold spans_disjoint. simpl. lia. }
  assert (Hv : Forall (valid_offsets contact_text) contact_entities).
  { repeat constructor; simpl; lia. }
  assert (Hne : lit "redact" <> lit "block") by discriminate.
  destruct (redact_pii_replaces_each_span
              (says "en") (finds contact_names) (finds [])
              contact_text (lit "redact") contact_entities
              [] [CallLanguageModel contact_text; CallNlpEn contact_text]
              Hne Hs Hd Hv) as (_ & _ & _ & Hrun).
  exact (Hrun ltac:(vm_compute; reflexivity)).
Defined.

(** ** The block strategy *)

Lemma get_replacement_block entity :
  _get_replacement entity (lit "block") = Raise (ValueError (blocked_message entity)).
Proof. reflexivity. Qed.

Lemma redact_loop_block entities text :
  redact_loop entities (lit "block") text =
  match entities with
  | [] => Ok text
  | entity :: _ => Raise (ValueError (blocked_message entity))
  end.
Proof. destruct entities; reflexivity. Qed.

(** C4: under the block strategy, when detection finds entities the call
    raises the error that names the label and the text of the entity with
    the greatest [start] (the last of the list when the starts are
    distinct) and returns no text at all; when detection finds nothing the
    text is returned as it is with the empty list. *)
Theorem redact_pii_block
    (llm : str -> result str) (nlp_en nlp_fr : str -> result (list Span))
    (text : str) (entities : list Entity) (tr tr' : list call) :
  detect_pii_entities llm nlp_en nlp_fr text tr = (Ok entities, tr') ->
  (entities = [] ->
   redact_pii llm nlp_en nlp_fr text (lit "block") tr = (Ok (text, []), tr')) /\
  (entities <> [] ->
   exists entity,
     entity ∈ entities /\
     (forall other, other ∈ entities -> e_start other <= e_start entity) /\
     (StronglySorted (fun a b => e_start a < e_start b) entities ->
      last entities = Some entity) /\
     redact_pii llm nlp_en nlp_fr text (lit "block") tr =
       (Raise (ValueError (blocked_message entity)), tr')) /\
  (forall redacted_text found,
     fst (redact_pii llm nlp_en nlp_fr text (lit "block") tr) =
       Ok (redacted_text, found) ->
     redacted_text = text /\ found = []).
Proof.
  intros Hrun.
  assert (Hcall : redact_pii llm nlp_en nlp_fr text (lit "block") tr =
                  match sorted_reverse e_start entities with
                  | [] => (Ok (text, entities), tr')
                  | entity :: _ => (Raise (ValueError (blocked_message entity)), tr')
                  end).
  { unfold redact_pii, bind, lift, ret. rewrite Hrun, redact_loop_block.
    by destruct (sorted_reverse e_start entities). }
  split; [|split].
  - intros ->. by rewrite Hcall.
  - intros Hne.
    destruct (sorted_reverse_head e_start entities Hne)
      as (entity & rest & Hsr & Hin & Hmax).
    exists entity. split; [done|]. split; [done|]. split.
    + intros Hinc. apply sorted_reverse_increasing in Hinc.
      rewrite Hinc in Hsr.
      rewrite <- (rev_involutive entities), Hsr. simpl.
      by rewrite last_snoc.
    + by rewrite Hcall, Hsr.
  - intros redacted_text found. rewrite Hcall.
    destruct (sorted_reverse e_start entities) as [|entity rest] eqn:Hsr;
      [|done].
    simpl. intros [= <- <-]. split; [done|].
    pose proof (sorted_reverse_perm e_start entities) as Hp.
    rewrite Hsr in Hp. by apply Permutation_nil_l in Hp.
Qed.

Lemma redact_pii_block_witness :
  redact_pii (says "en") (finds contact_names) (finds [])
    contact_text (lit "block") [] =
  (Raise (ValueError
     (lit "Confidential information detected and blocked: EMAIL - john.smith@example.com")),
   [CallLanguageModel contact_text; CallNlpEn contact_text]).
Proof.
  destruct (redact_pii_block (says "en") (finds contact_names) (finds [])
              contact_text contact_entities []
              [CallLanguageModel contact_text; CallNlpEn contact_text]
              ltac:(vm_compute; reflexivity))
    as (_ & Hfound & _).
  destruct (Hfound ltac:(discriminate)) as (blocked & _ & _ & Hlast & Hcall).
  assert (Hent : blocked = an_entity "EMAIL" "john.smith@example.com" 22 44 "regex" "en").
  { assert (Hinc : StronglySorted (fun a b => e_start a < e_start b) contact_entities)
      by (repeat constructor; simpl; lia).
    specialize (Hlast Hinc). by injection Hlast as <-. }
  rewrite Hent in Hcall. exact Hcall.
Defined.

(** ** Blank texts *)

Lemma lstrip_nil s : lstrip s = [] <-> all_whitespace s.
Proof.
  unfold all_whitespace. induction s as [|c s IH]; simpl.
  - split; [constructor | done].
  - destruct (isspace_char c) eqn:Hc.
    + rewrite IH, Forall_cons. naive_solver.
    + split; [done|]. intros [? _]%Forall_cons. congruence.
Qed.

Lemma lstrip_head s c s' : lstrip s = c :: s' -> isspace_char c = false.
Proof.
  induction s as [|x s IH]; simpl; [done|].
  destruct (isspace_char x) eqn:Hx; [done|]. by intros [= <- _].
Qed.

Lemma strip_nil s : strip s = [] <-> all_whitespace s.
Proof.
  unfold strip, rstrip. rewrite <- lstrip_nil. split.
  - intros H. apply (f_equal (@rev ascii)) in H. rewrite rev_involutive in H.
    simpl in H. apply lstrip_nil in H. unfold all_whitespace in H.
    destruct (lstrip s) as [|c s'] eqn:E; [done|].
    apply lstrip_head in E.
    assert (Hc : c ∈ rev (c :: s')).
    { apply list_elem_of_In, in_rev. rewrite rev_involutive. by left. }
    apply (proj1 (Forall_forall _ _) H) in Hc. congruence.
  - by intros ->.
Qed.

(** The guard of [detect_pii_entities] holds exactly on the texts that are
    empty or made of whitespace only. *)
Lemma is_blank_iff text : is_blank text = true <-> all_whitespace text.
Proof.
  unfold is_blank. rewrite <- strip_nil.
  destruct text as [|c s]; [done|]. simpl negb at 1. rewrite orb_false_l.
  by destruct (strip (c :: s)).
Qed.

(** C5: on an empty or whitespace-only text detection returns the empty
    list and [contains_pii] returns false, and neither calls the language
    model or a recognizer: the trace is left as it was. *)
Theorem blank_text_short_circuits
    (llm : str -> result str) (nlp_en nlp_fr : str -> result (list Span))
    (text : str) (tr : list call) :
  all_whitespace text ->
  detect_pii_entities llm nlp_en nlp_fr text tr = (Ok [], tr) /\
  contains_pii llm nlp_en nlp_fr text tr = (Ok false, tr).
Proof.
  intros Hblank%is_blank_iff.
  assert (Hrun : detect_pii_entities llm nlp_en nlp_fr text tr = (Ok [], tr))
    by by rewrite detect_unfold, Hblank.
  split; [done|]. unfold contains_pii, bind, ret. by rewrite Hrun.
Qed.

Lemma blank_text_short_circuits_witness :
  (detect_pii_entities (down "no model") (down "no pipeline") (down "no pipeline")
     (lit "") [] = (Ok [], []) /\
   contains_pii (down "no model") (down "no pipeline") (down "no pipeline")
     (lit "") [] = (Ok false, [])) /\
  (detect_pii_entities (down "no model") (down "no pipeline") (down "no pipeline")
     (lit "   ") [] = (Ok [], []) /\
   contains_pii (down "no model") (down "no pipeline") (down "no pipeline")
     (lit "   ") [] = (Ok false, [])).
Proof.
  split.
  - apply blank_text_short_circuits. constructor.
  - apply blank_text_short_circuits. repeat constructor.
Defined.

(** ** Failures of the external services *)

(** C7: on a text that is not blank, a failure of the language model or
    of the recognizer the language selects is the result of detection and
    of the three operations built on it; no entity list is returned. *)
Theorem detection_failure_propagates
    (llm : str -> result str) (nlp_en nlp_fr : str -> result (list Span))
    (text : str) (tr : list call) (e : exn) :
  is_blank text = false ->
  (llm text = Raise e \/
   exists language,
     llm text = Ok language /\
     (if str_eqb language (lit "en") then nlp_en text else nlp_fr text) = Raise e) ->
  fst (detect_pii_entities llm nlp_en nlp_fr text tr) = Raise e /\
  (forall strategy, fst (redact_pii llm nlp_en nlp_fr text strategy tr) = Raise e) /\
  fst (contains_pii llm nlp_en nlp_fr text tr) = Raise e /\
  fst (get_pii_summary llm nlp_en nlp_fr text tr) = Raise e.
Proof.
  intros Hblank Hfail.
  assert (Hrun : exists tr', detect_pii_entities llm nlp_en nlp_fr text tr = (Raise e, tr')).
  { rewrite detect_unfold, Hblank.
    destruct Hfail as [->|(language & -> & Hnlp)]; [by eexists|].
    unfold selected_nlp. destruct (str_eqb language (lit "en"));
      rewrite Hnlp; by eexists. }
  destruct Hrun as (tr' & Hrun).
  unfold redact_pii, contains_pii, get_pii_summary, bind.
  by rewrite Hrun.
Qed.

Lemma detection_failure_propagates_witness :
  fst (detect_pii_entities (says "fr") (finds []) (down "fr_core_news_sm")
         curie_text []) = Raise (ExternalError (lit "fr_core_news_sm")) /\
  fst (contains_pii (says "fr") (finds []) (down "fr_core_news_sm")
         curie_text []) = Raise (ExternalError (lit "fr_core_news_sm")).
Proof.
  destruct (detection_failure_propagates
              (says "fr") (finds []) (down "fr_core_news_sm") curie_text []
              (ExternalError (lit "fr_core_news_sm")) eq_refl
              (or_intror (ex_intro _ (lit "fr") (conj eq_refl eq_refl))))
    as (Hd & _ & Hc & _).
  split; [exact Hd | exact Hc].
Defined.

(** ** Language dispatch and the filter on the recognizer's spans *)

Lemma keep_ent_single label ent :
  keep_ent {[ label ]} ent = true <->
  label_ ent = label /\ 2 < length (strip (ent_text ent)) /\
  isspace (ent_text ent) = false.
Proof.
  unfold keep_ent.
  rewrite !andb_true_iff, bool_decide_eq_true, elem_of_singleton,
    Nat.ltb_lt, negb_true_iff.
  naive_solver.
Qed.

Lemma singleton_single (label x y : str) :
  x ∈ ({[ label ]} : gset str) -> y ∈ ({[ label ]} : gset str) -> x = y.
Proof. by intros ->%elem_of_singleton ->%elem_of_singleton. Qed.

(** C8: the code ['en'] selects the English pipeline and the label
    PERSON, every other code the French pipeline and the label PER, and no
    code raises; of the spans of the selected pipeline exactly those with
    that label, more than 2 characters once stripped and not made of
    whitespace become entities, with source ['spacy'], and they are the
    entities of that source in the result. *)
Theorem language_dispatch_and_filter
    (llm : str -> result str) (nlp_en nlp_fr : str -> result (list Span))
    (text language : str) (ents : list Span) (tr : list call) :
  is_blank text = false ->
  llm text = Ok language ->
  let kept label := spacy_entities language {[ label ]} ents in
  let result label :=
    sorted e_start (unique_entities (regex_loop text language (kept label))) in
  (language = lit "en" -> nlp_en text = Ok ents ->
   detect_pii_entities llm nlp_en nlp_fr text tr =
     (Ok (result (lit "PERSON")),
      tr ++ [CallLanguageModel text; CallNlpEn text])) /\
  (language <> lit "en" -> nlp_fr text = Ok ents ->
   detect_pii_entities llm nlp_en nlp_fr text tr =
     (Ok (result (lit "PER")),
      tr ++ [CallLanguageModel text; CallNlpFr text])) /\
  (forall label e,
     e ∈ kept label <->
     exists ent,
       ent ∈ ents /\ label_ ent = label /\
       2 < length (strip (ent_text ent)) /\
       isspace (ent_text ent) = false /\
       e = mkEntity (ent_text ent) label (start_char ent) (end_char ent)
                    (lit "spacy") language) /\
  (forall label e,
     e ∈ result label /\ e_source e = lit "spacy" <-> e ∈ kept label).
Proof.
  intros Hblank Hllm kept result. subst result kept. cbv beta.
  split; [|split; [|split]].
  - intros -> Hnlp. rewrite detect_unfold, Hblank, Hllm.
    unfold selected_nlp, selected_call, aggregate, selected_labels.
    rewrite (proj2 (str_eqb_eq _ _) eq_refl). by rewrite Hnlp.
  - intros Hne Hnlp. rewrite detect_unfold, Hblank, Hllm.
    unfold selected_nlp, selected_call, aggregate, selected_labels.
    rewrite (str_eqb_neq _ _ Hne). by rewrite Hnlp.
  - intros label e. rewrite spacy_entities_elem_of. split.
    + intros (ent & Hin & (Hl & Hlen & Hsp)%keep_ent_single & ->).
      exists ent. unfold spacy_entity. by rewrite Hl.
    + intros (ent & Hin & Hl & Hlen & Hsp & ->).
      exists ent. split; [done|]. split; [by apply keep_ent_single|].
      unfold spacy_entity. by rewrite Hl.
  - intros label e. apply spacy_part_of_result, singleton_single.
Qed.

Lemma language_dispatch_and_filter_witness :
  detect_pii_entities (says "de") (down "en_core_web_sm") (finds curie_ents)
    curie_text [] =
  (Ok [an_entity "PER" "Marie Curie" 0 11 "spacy" "de"],
   [CallLanguageModel curie_text; CallNlpFr curie_text]).
Proof.
  destruct (language_dispatch_and_filter
              (says "de") (down "en_core_web_sm") (finds curie_ents)
              curie_text (lit "de") curie_ents [] eq_refl eq_refl)
    as (_ & Hfr & _).
  exact (Hfr ltac:(discriminate) eq_refl).
Defined.

(** ** Strategies *)

Lemma get_replacement_redact entity :
  _get_replacement entity (lit "redact") = Ok (redacted_marker entity).
Proof. reflexivity. Qed.

Lemma get_replacement_other entity strategy :
  strategy <> lit "redact" -> strategy <> lit "mask" -> strategy <> lit "block" ->
  _get_replacement entity strategy = Ok (redacted_marker entity).
Proof.
  intros Hr Hm Hb. unfold _get_replacement.
  by rewrite !str_eqb_neq by done.
Qed.

Lemma redact_loop_ext strategy strategy' entities text :
  (forall entity, _get_replacement entity strategy = _get_replacement entity strategy') ->
  redact_loop entities strategy text = redact_loop entities strategy' text.
Proof.
  intros Hext. revert text. induction entities as [|x l IH]; intros text;
    simpl; [done|].
  rewrite Hext. by destruct (_get_replacement x strategy').
Qed.

Lemma redact_loop_redact_returns entities text :
  exists redacted_text,
    redact_loop entities (lit "redact") text = Ok redacted_text.
Proof.
  revert text. induction entities as [|x l IH]; intros text; [by eexists|].
  unfold redact_loop; fold redact_loop. rewrite get_replacement_redact.
  apply IH.
Qed.

(** C9: a strategy that is none of redact, mask and block gives exactly
    what redact gives: every span replaced by [[REDACTED_<label>]], and no
    error of its own. *)
Theorem unknown_strategy_is_redact
    (llm : str -> result str) (nlp_en nlp_fr : str -> result (list Span))
    (text strategy : str) (tr : list call) :
  strategy <> lit "redact" -> strategy <> lit "mask" -> strategy <> lit "block" ->
  redact_pii llm nlp_en nlp_fr text strategy tr =
    redact_pii llm nlp_en nlp_fr text (lit "redact") tr /\
  (forall entity,
     _get_replacement entity strategy =
       Ok (lit "[REDACTED_" ++ e_label entity ++ lit "]")) /\
  (forall entities tr',
     detect_pii_entities llm nlp_en nlp_fr text tr = (Ok entities, tr') ->
     exists redacted_text,
       redact_pii llm nlp_en nlp_fr text strategy tr =
         (Ok (redacted_text, entities), tr')).
Proof.
  intros Hr Hm Hb.
  assert (Hext : forall entity,
            _get_replacement entity strategy =
            _get_replacement entity (lit "redact")).
  { intros entity. by rewrite get_replacement_other, get_replacement_redact. }
  assert (Heq : redact_pii llm nlp_en nlp_fr text strategy tr =
                redact_pii llm nlp_en nlp_fr text (lit "redact") tr).
  { unfold redact_pii, bind.
    destruct (detect_pii_entities llm nlp_en nlp_fr text tr) as [[ents|e] tr'];
      [|done].
    by rewrite (redact_loop_ext _ _ _ _ Hext). }
  split; [done|]. split; [intros; by apply get_replacement_other|].
  intros entities tr' Hrun. rewrite Heq.
  unfold redact_pii, bind, lift, ret. rewrite Hrun.
  destruct (redact_loop_redact_returns (sorted_reverse e_start entities) text)
    as (redacted_text & ->).
  by exists redacted_text.
Qed.

Lemma unknown_strategy_is_redact_witness :
  redact_pii (says "en") (finds contact_names) (finds [])
    contact_text (lit "hash") [] =
  (Ok (lit "Contact [REDACTED_PERSON] at [REDACTED_EMAIL]", contact_entities),
   [CallLanguageModel contact_text; CallNlpEn contact_text]).
Proof.
  destruct (unknown_strategy_is_redact
              (says "en") (finds contact_names) (finds [])
              contact_text (lit "hash") []
              ltac:(discriminate) ltac:(discriminate) ltac:(discriminate))
    as (Heq & _).
  rewrite Heq. vm_compute. reflexivity.
Defined.

(** ** The summary *)

(** C10: [get_pii_summary] runs detection twice, so its trace holds the
    calls of one detection twice over; detection returns the same list
    whatever the trace, and the fields of the summary describe one and the
    same entity list: the flag says whether it is non-empty, the count is
    its length, the types are its labels without repetition and the safe
    text is its rewriting under the redact strategy. *)
Theorem pii_summary_consistent
    (llm : str -> result str) (nlp_en nlp_fr : str -> result (list Span))
    (text : str) (tr : list call) (entities : list Entity) :
  fst (detect_pii_entities llm nlp_en nlp_fr text tr) = Ok entities ->
  (forall tr1 tr2,
     fst (detect_pii_entities llm nlp_en nlp_fr text tr1) =
     fst (detect_pii_entities llm nlp_en nlp_fr text tr2)) /\
  exists summary,
    let calls := detection_calls llm nlp_en nlp_fr text in
    get_pii_summary llm nlp_en nlp_fr text tr =
      (Ok summary, tr ++ calls ++ calls) /\
    detect_pii_entities llm nlp_en nlp_fr text tr = (Ok entities, tr ++ calls) /\
    redact_pii llm nlp_en nlp_fr text (lit "redact") (tr ++ calls) =
      (Ok (safe_text summary, entities), tr ++ calls ++ calls) /\
    redact_loop (sorted_reverse e_start entities) (lit "redact") text =
      Ok (safe_text summary) /\
    details summary = entities /\
    (has_confidential_info summary = true <-> details summary <> []) /\
    entities_found summary = length (details summary) /\
    NoDup (entity_types summary) /\
    (forall label,
       label ∈ entity_types summary <->
       exists entity, entity ∈ details summary /\ e_label entity = label).
Proof.
  intros Hrun.
  assert (Hindep : forall tr0,
            detect_pii_entities llm nlp_en nlp_fr text tr0 =
            (Ok entities, tr0 ++ detection_calls llm nlp_en nlp_fr text)).
  { intros tr0. rewrite detect_trace. f_equal.
    rewrite detect_trace in Hrun. exact Hrun. }
  split.
  { intros tr1 tr2. by rewrite (detect_trace _ _ _ _ tr1), (detect_trace _ _ _ _ tr2). }
  destruct (redact_loop_redact_returns (sorted_reverse e_start entities) text)
    as (safe & Hsafe).
  assert (Hred : forall tr0,
            redact_pii llm nlp_en nlp_fr text (lit "redact") tr0 =
            (Ok (safe, entities),
             tr0 ++ detection_calls llm nlp_en nlp_fr text)).
  { intros tr0. unfold redact_pii, bind. rewrite (Hindep tr0).
    cbv beta iota. unfold lift. by rewrite Hsafe. }
  exists {| has_confidential_info := 0 <? length entities;
            entities_found := length entities;
            entity_types := elements (list_to_set (e_label <$> entities) : gset str);
            safe_text := safe;
            details := entities |}.
  cbv zeta. cbn [safe_text details has_confidential_info entities_found entity_types].
  split.
  { unfold get_pii_summary, bind. rewrite (Hindep tr). cbv beta iota.
    rewrite Hred. cbv beta iota. unfold ret. by rewrite <- app_assoc. }
  split; [apply Hindep|]. split; [by rewrite Hred, <- app_assoc|].
  split; [done|]. split; [done|]. split.
  { destruct entities; simpl; split; done. }
  split; [done|]. split; [apply NoDup_elements|].
  intros label. rewrite elem_of_elements, elem_of_list_to_set, list_elem_of_fmap.
  naive_solver.
Qed.

Lemma pii_summary_consistent_witness :
  exists summary,
    get_pii_summary (says "en") (finds contact_names) (finds []) contact_text [] =
      (Ok summary,
       [CallLanguageModel contact_text; CallNlpEn contact_text;
        CallLanguageModel contact_text; CallNlpEn contact_text]) /\
    safe_text summary = lit "Contact [REDACTED_PERSON] at [REDACTED_EMAIL]" /\
    details summary = contact_entities /\
    has_confidential_info summary = true /\
    entities_found summary = 2.
Proof.
  destruct (pii_summary_consistent
              (says "en") (finds contact_names) (finds []) contact_text []
              contact_entities ltac:(vm_compute; reflexivity))
    as (_ & summary & Hsum & _ & _ & Hsafe & Hdet & Hflag & Hcount & _).
  exists summary. split; [exact Hsum|].
  split; [|split; [exact Hdet|split]].
  - assert (Hloop : redact_loop (sorted_reverse e_start contact_entities)
                      (lit "redact") contact_text =
                    Ok (lit "Contact [REDACTED_PERSON] at [REDACTED_EMAIL]"))
      by (vm_compute; reflexivity).
    rewrite Hloop in Hsafe. by injection Hsafe as <-.
  - apply Hflag. rewrite Hdet. discriminate.
  - rewrite Hcount, Hdet. reflexivity.
Defined.

(** ** What the patterns can match *)

Lemma rep_match_shaped p lo hi prev s pos k e :
  rep_match p lo hi prev s pos k = Some e ->
  exists w s' prev',
    s = w ++ s' /\ lo <= length w /\ within hi (length w) /\
    Forall (fun c => p c = true) w /\
    k prev' s' (pos + length w) = Some e.
Proof.
  assert (Hstop : forall lo hi prev s pos,
            match lo with O => k prev s pos | S _ => None end = Some e ->
            exists w s' prev',
              s = w ++ s' /\ lo <= length w /\ within hi (length w) /\
              Forall (fun c => p c = true) w /\
              k prev' s' (pos + length w) = Some e).
  { intros [|lo'] hi' prev' s0 pos' Hk; [|done].
    exists [], s0, prev'. simpl. rewrite Nat.add_0_r.
    split; [done|]. split; [done|].
    split; [destruct hi'; simpl; lia|]. split; [constructor | done]. }
  revert lo hi prev pos. induction s as [|c s IH]; intros lo hi prev pos; simpl.
  - apply Hstop.
  - destruct (p c && may_take hi) eqn:Hpc; [|apply Hstop].
    apply andb_true_iff in Hpc as [Hp Htake].
    destruct (rep_match p (pred lo) (after_take hi) (Some c) s (S pos) k)
      as [e'|] eqn:Hrec; [|apply Hstop].
    intros [= ->].
    apply IH in Hrec as (w & s' & prev' & -> & Hlo & Hhi & Hall & Hk).
    exists (c :: w), s', prev'. simpl.
    split; [done|]. split; [lia|]. split.
    { destruct hi as [[|h]|]; simpl in *; [done | lia | done]. }
    split; [by constructor|].
    by rewrite <- Nat.add_succ_comm.
Qed.

Lemma rmatch_shaped ic r prev s pos k e :
  rmatch ic r prev s pos k = Some e ->
  exists w s' prev',
    s = w ++ s' /\ shaped ic r w /\ k prev' s' (pos + length w) = Some e.
Proof.
  revert prev s pos k.
  induction r as [| |cs lo hi|a IHa b IHb|a IHa]; intros prev s pos k; simpl.
  - intros Hk. exists [], s, prev. simpl. by rewrite Nat.add_0_r.
  - destruct (xorb _ _); [|done].
    intros Hk. exists [], s, prev. simpl. by rewrite Nat.add_0_r.
  - intros (w & s' & prev' & ? & ? & ? & ? & ?)%rep_match_shaped.
    by exists w, s', prev'.
  - intros (wa & s1 & prev1 & -> & Ha & Hb)%IHa.
    apply IHb in Hb as (wb & s2 & prev2 & -> & Hb & Hk).
    exists (wa ++ wb), s2, prev2.
    split; [by rewrite app_assoc|]. split; [by exists wa, wb|].
    by rewrite length_app, Nat.add_assoc.
  - destruct (rmatch ic a prev s pos k) as [e'|] eqn:Ha.
    + intros [= ->]. apply IHa in Ha as (w & s' & prev' & ? & ? & ?).
      exists w, s', prev'. split; [done|]. split; [by right | done].
    + intros Hk. exists [], s, prev. simpl. rewrite Nat.add_0_r.
      split; [done|]. split; [by left | done].
Qed.

Lemma match_here_shaped ic r prev s pos e :
  match_here ic r prev s pos = Some e ->
  exists w s', s = w ++ s' /\ shaped ic r w /\ e = pos + length w.
Proof.
  unfold match_here.
  intros (w & s' & _ & ? & ? & [= <-])%rmatch_shaped. by exists w, s'.
Qed.

Lemma slice_middle (before w after : str) :
  slice (length before) (length before + length w) (before ++ w ++ after) = w.
Proof.
  unfold slice. rewrite drop_app_length.
  replace (length before + length w - length before) with (length w) by lia.
  by rewrite take_app_length.
Qed.

Lemma scan_shaped ic r s prev pos skip before m :
  length before = pos ->
  m ∈ scan ic r prev s pos skip ->
  shaped ic r (slice (fst m) (snd m) (before ++ s)).
Proof.
  revert prev pos skip before.
  induction s as [|c s IH]; intros prev pos skip before Hpos.
  - destruct skip; simpl; [|by intros ?%elem_of_nil].
    destruct (match_here ic r prev [] pos) as [e|] eqn:Hm;
      [|by intros ?%elem_of_nil].
    intros ->%list_elem_of_singleton.
    apply match_here_shaped in Hm as (w & s' & Hs & Hw & ->).
    rewrite Hs, <- Hpos. simpl. by rewrite slice_middle.
  - assert (Hrest : forall prev' skip',
              m ∈ scan ic r prev' s (S pos) skip' ->
              shaped ic r (slice (fst m) (snd m) (before ++ c :: s))).
    { intros prev' skip' Hin. rewrite cons_middle, app_assoc.
      apply (IH prev' (S pos) skip'); [|done].
      rewrite length_app. simpl. lia. }
    destruct skip; simpl; [|apply Hrest].
    destruct (match_here ic r prev (c :: s) pos) as [e|] eqn:Hm; [|apply Hrest].
    intros [->|Hin]%elem_of_cons; [|by eapply Hrest].
    apply match_here_shaped in Hm as (w & s' & Hs & Hw & ->).
    rewrite Hs, <- Hpos. simpl. by rewrite slice_middle.
Qed.

(** The text of every match [re.finditer] reports has the shape of the
    pattern. *)
Lemma finditer_shaped ic r text m :
  m ∈ finditer ic r text -> shaped ic r (slice (fst m) (snd m) text).
Proof. intros Hin. by apply (scan_shaped ic r text None 0 0 []). Qed.

Lemma shaped_never_matches ic x r w :
  never_matches ic x r = true -> shaped ic r w -> contains x w = false.
Proof.
  revert w. induction r as [| |cs lo hi|a IHa b IHb|a IHa]; intros w; simpl.
  - by intros _ ->.
  - by intros _ ->.
  - intros Hx%negb_true_iff (_ & _ & Hall). unfold contains.
    induction Hall as [|c w Hc Hw IH]; simpl; [done|].
    rewrite IH, orb_false_r.
    destruct (Ascii.eqb_spec x c) as [->|]; [congruence | done].
  - intros [Ha Hb]%andb_true_iff (wa & wb & -> & Hwa & Hwb).
    unfold contains. rewrite existsb_app.
    fold (contains x wa). fold (contains x wb).
    by rewrite (IHa _ Ha Hwa), (IHb _ Hb Hwb).
  - intros Ha [->|Hw]; [done | by apply IHa].
Qed.

Lemma only_at_sign c : set_matches true [Chr "@"] c = true -> c = "@"%char.
Proof.
  destruct c as [[] [] [] [] [] [] [] []]; vm_compute; intros H;
    first [reflexivity | discriminate H].
Qed.

(** An EMAIL match is a local part, an at sign and a domain, the at sign
    being the only one. *)
Lemma email_shaped w :
  shaped true email_pattern w ->
  exists local domain,
    w = local ++ "@"%char :: domain /\
    contains "@" local = false /\ contains "@" domain = false.
Proof.
  unfold email_pattern. simpl seq_of.
  intros (w0 & w1 & -> & -> & wl & w2 & -> & Hlocal & wa & wd & -> & Hat & Hdomain).
  exists wl, wd. simpl.
  destruct Hat as (Hlo & Hhi & Hall). simpl in Hhi.
  destruct wa as [|c [|? ?]]; simpl in Hlo, Hhi; [lia| |lia].
  apply Forall_cons in Hall as [->%only_at_sign _].
  split; [done|]. split.
  - eapply shaped_never_matches; [|exact Hlocal]. reflexivity.
  - eapply shaped_never_matches; [|exact Hdomain]. reflexivity.
Qed.

Lemma phone_shaped w : shaped true phone_pattern w -> contains "@" w = false.
Proof. by apply shaped_never_matches. Qed.

(** Where the entities of the result come from. *)
Lemma aggregate_elem_of text language ents e :
  e ∈ aggregate text language ents ->
  e ∈ spacy_entities language (selected_labels language) ents \/
  exists p m,
    p ∈ regex_patterns /\ m ∈ finditer true (snd p) text /\
    e = regex_entity text language (fst p) m.
Proof.
  unfold aggregate. rewrite sorted_perm, regex_loop_candidates.
  intros [Hin _]%unique_loop_elem_of.
  destruct (add_candidates_spec text language (pattern_matches text)
              (spacy_entities language (selected_labels language) ents))
    as (added & Heq & Hadded & _).
  rewrite Heq in Hin. apply elem_of_app in Hin as [?|Hin]; [by left|].
  right. apply (proj1 (Forall_forall _ _) Hadded) in Hin as (c & Hc & -> & _).
  unfold pattern_matches in Hc.
  apply list_elem_of_In, in_flat_map in Hc as (p & Hp & Hc).
  apply list_elem_of_In in Hp, Hc.
  apply list_elem_of_fmap in Hc as (m & -> & Hm).
  by exists p, m.
Qed.

Lemma spacy_entity_label language ents e :
  e ∈ spacy_entities language (selected_labels language) ents ->
  e_label e = lit "PERSON" \/ e_label e = lit "PER".
Proof.
  intros (ent & _ & Hl%keep_ent_label & ->)%spacy_entities_elem_of. simpl.
  unfold selected_labels, sensitive_labels_en, sensitive_labels_fr in Hl.
  destruct (str_eqb language (lit "en"));
    apply elem_of_singleton in Hl; auto.
Qed.

(** The EMAIL and PHONE entities detection returns are matches of the
    EMAIL and PHONE patterns. *)
Lemma detected_label_shape
    (llm : str -> result str) (nlp_en nlp_fr : str -> result (list Span))
    (text : str) (tr : list call) (out : list Entity) (e : Entity) :
  fst (detect_pii_entities llm nlp_en nlp_fr text tr) = Ok out ->
  e ∈ out ->
  (e_label e = lit "EMAIL" -> shaped true email_pattern (e_text e)) /\
  (e_label e = lit "PHONE" -> shaped true phone_pattern (e_text e)).
Proof.
  intros Hrun He.
  destruct (detect_pii_entities llm nlp_en nlp_fr text tr) as [r tr'] eqn:E.
  simpl in Hrun. subst r.
  apply detect_Ok_inv in E
    as [(_ & -> & _)|(_ & language & ents & _ & _ & -> & _)];
    [by apply elem_of_nil in He|].
  apply aggregate_elem_of in He as [Hs|(p & m & Hp & Hm & ->)].
  - apply spacy_entity_label in Hs as [Hl|Hl]; rewrite Hl;
      split; intros [=].
  - apply finditer_shaped in Hm. simpl.
    unfold regex_patterns in Hp.
    repeat (apply elem_of_cons in Hp as [->|Hp];
            [split; intros Hl; first [exact Hm | discriminate Hl]|]).
    by apply elem_of_nil in Hp.
Qed.

(** ** The mask strategy *)

Lemma split_without sep s : contains sep s = false -> split sep s = [s].
Proof.
  unfold contains. induction s as [|c s IH]; simpl; [done|].
  rewrite (Ascii.eqb_sym sep c). destruct (Ascii.eqb c sep); simpl; [done|].
  intros H. by rewrite (IH H).
Qed.

Lemma split_first sep s rest :
  contains sep s = false ->
  split sep (s ++ sep :: rest) = s :: split sep rest.
Proof.
  unfold contains. induction s as [|c s IH]; simpl.
  - intros _. by rewrite Ascii.eqb_refl.
  - rewrite (Ascii.eqb_sym sep c). destruct (Ascii.eqb c sep); simpl; [done|].
    intros H. by rewrite (IH H).
Qed.

Lemma contains_middle sep s rest : contains sep (s ++ sep :: rest) = true.
Proof.
  unfold contains. rewrite existsb_app. simpl.
  rewrite Ascii.eqb_refl. apply orb_true_r.
Qed.

Lemma last_chars_app (n : nat) (s suffix : str) :
  length suffix = n -> last_chars n (s ++ suffix) = suffix.
Proof.
  intros <-. unfold last_chars. rewrite length_app.
  replace (length s + length suffix - length suffix) with (length s) by lia.
  by rewrite drop_app_length.
Qed.

(** When the last four characters of a match are digits they are its last
    four digits. *)
Lemma last_chars_digits (s : str) :
  4 <= length s ->
  Forall (fun c => isdecimal_char c = true) (last_chars 4 s) ->
  last_chars 4 s = last_digits 4 s.
Proof.
  intros Hlen Hdigits. unfold last_digits.
  rewrite <- (take_drop (length s - 4) s) at 2.
  rewrite filter_app. fold (last_chars 4 s).
  assert (Hf : filter (fun c => isdecimal_char c = true) (last_chars 4 s)
               = last_chars 4 s).
  { generalize dependent (last_chars 4 s). intros l.
    induction 1 as [|c l Hc Hl IH]; [done|].
    by rewrite filter_cons_True, IH. }
  rewrite Hf, last_chars_app; [done|].
  unfold last_chars. rewrite length_drop. lia.
Qed.

(** C6 (as the code has it): under the mask strategy an EMAIL entity
    [local@domain] becomes the first two characters of [local], [***@] and
    [domain]; a PHONE entity becomes [***-***-] and the last four
    characters of the match when it has more than 4 characters, and [***]
    otherwise; any other entity becomes [***<label>***].  Masking
    "My number is 555-123-4567" gives "My number is ***-***-4567". *)
Theorem mask_replacements :
  (forall entity local domain,
     e_label entity = lit "EMAIL" ->
     e_text entity = local ++ "@"%char :: domain ->
     contains "@" local = false -> contains "@" domain = false ->
     _get_replacement entity (lit "mask") =
       Ok (take 2 local ++ lit "***@" ++ domain)) /\
  (forall entity,
     e_label entity = lit "PHONE" ->
     contains "@" (e_text entity) = false ->
     (4 < length (e_text entity) ->
      _get_replacement entity (lit "mask") =
        Ok (lit "***-***-" ++ last_chars 4 (e_text entity))) /\
     (4 < length (e_text entity) ->
      Forall (fun c => isdecimal_char c = true) (last_chars 4 (e_text entity)) ->
      _get_replacement entity (lit "mask") =
        Ok (lit "***-***-" ++ last_digits 4 (e_text entity))) /\
     (length (e_text entity) <= 4 ->
      _get_replacement entity (lit "mask") = Ok (lit "***"))) /\
  (forall entity,
     e_label entity <> lit "EMAIL" -> e_label entity <> lit "PHONE" ->
     _get_replacement entity (lit "mask") =
       Ok (lit "***" ++ e_label entity ++ lit "***")) /\
  (forall (llm : str -> result str) (nlp_en nlp_fr : str -> result (list Span))
          (text : str) (tr : list call) (out : list Entity) (entity : Entity),
     fst (detect_pii_entities llm nlp_en nlp_fr text tr) = Ok out ->
     entity ∈ out ->
     (e_label entity = lit "EMAIL" ->
      exists local domain,
        e_text entity = local ++ "@"%char :: domain /\
        contains "@" local = false /\ contains "@" domain = false /\
        _get_replacement entity (lit "mask") =
          Ok (take 2 local ++ lit "***@" ++ domain)) /\
     (e_label entity = lit "PHONE" ->
      _get_replacement entity (lit "mask") =
        if 4 <? length (e_text entity)
        then Ok (lit "***-***-" ++ last_chars 4 (e_text entity))
        else Ok (lit "***"))) /\
  (forall (llm : str -> result str) (nlp_en nlp_fr : str -> result (list Span))
          (language : str) (tr : list call),
     llm phone_text = Ok language ->
     (if str_eqb language (lit "en") then nlp_en phone_text
      else nlp_fr phone_text) = Ok [] ->
     fst (redact_pii llm nlp_en nlp_fr phone_text (lit "mask") tr) =
       Ok (lit "My number is ***-***-4567",
           [mkEntity (lit "555-123-4567") (lit "PHONE") 13 25
                     (lit "regex") language])).
Proof.
  assert (Hemail : forall entity local domain,
            e_label entity = lit "EMAIL" ->
            e_text entity = local ++ "@"%char :: domain ->
            contains "@" local = false -> contains "@" domain = false ->
            _get_replacement entity (lit "mask") =
              Ok (take 2 local ++ lit "***@" ++ domain)).
  { intros entity local domain Hlabel Htext Hlocal Hdomain.
    unfold _get_replacement. rewrite Hlabel, Htext. simpl str_eqb. cbv iota.
    rewrite bool_decide_eq_true_2 by (left).
    rewrite contains_middle, split_first, split_without by done.
    reflexivity. }
  assert (Hphone : forall entity,
            e_label entity = lit "PHONE" ->
            contains "@" (e_text entity) = false ->
            _get_replacement entity (lit "mask") =
              if 4 <? length (e_text entity)
              then Ok (lit "***-***-" ++ last_chars 4 (e_text entity))
              else Ok (lit "***")).
  { intros entity Hlabel Hat.
    unfold _get_replacement. rewrite Hlabel, Hat. simpl str_eqb. cbv iota.
    by rewrite bool_decide_eq_true_2 by (right; left). }
  split; [exact Hemail|]. split; [|split; [|split]].
  - intros entity Hlabel Hat. pose proof (Hphone entity Hlabel Hat) as Hmask.
    split; [|split].
    + intros Hlen. rewrite Hmask. by rewrite (proj2 (Nat.ltb_lt _ _) Hlen).
    + intros Hlen Hdigits. rewrite Hmask, (proj2 (Nat.ltb_lt _ _) Hlen).
      rewrite last_chars_digits; [done | lia | done].
    + intros Hlen. rewrite Hmask.
      by rewrite (proj2 (Nat.ltb_ge _ _) Hlen).
  - intros entity Hne Hnp.
    unfold _get_replacement. simpl str_eqb. cbv iota.
    rewrite bool_decide_eq_false_2; [done|].
    intros [?|[?|[]%elem_of_nil]%elem_of_cons]%elem_of_cons; done.
  - intros llm nlp_en nlp_fr text tr out entity Hrun Hin.
    destruct (detected_label_shape _ _ _ _ _ _ _ Hrun Hin) as [He Hp].
    split.
    + intros Hlabel.
      destruct (email_shaped _ (He Hlabel)) as (local & domain & Ht & Hl & Hd).
      exists local, domain. split; [done|]. split; [done|]. split; [done|].
      by apply Hemail.
    + intros Hlabel. apply Hphone; [done|]. by apply phone_shaped, Hp.
  - intros llm nlp_en nlp_fr language tr Hllm Hnlp.
    unfold redact_pii, bind. rewrite detect_unfold, Hllm.
    change (is_blank phone_text) with false. cbv iota.
    assert (Hsel : selected_nlp nlp_en nlp_fr language phone_text = Ok []).
    { unfold selected_nlp. by destruct (str_eqb language (lit "en")). }
    rewrite Hsel. cbv beta iota. unfold aggregate.
    change (spacy_entities language (selected_labels language) [])
      with (@nil Entity).
    vm_compute. reflexivity.
Qed.

Lemma mask_replacements_witness :
  _get_replacement (an_entity "EMAIL" "john.smith@example.com" 22 44 "regex" "en")
    (lit "mask") = Ok (lit "jo***@example.com") /\
  _get_replacement (an_entity "PHONE" "555-123-4567" 13 25 "regex" "en")
    (lit "mask") = Ok (lit "***-***-4567") /\
  _get_replacement (an_entity "PHONE" "1234" 0 4 "regex" "en")
    (lit "mask") = Ok (lit "***") /\
  _get_replacement (an_entity "CREDIT_CARD" "4111 1111 1111 1111" 5 24 "regex" "en")
    (lit "mask") = Ok (lit "***CREDIT_CARD***") /\
  fst (redact_pii (says "en") (finds []) (finds []) phone_text (lit "mask") []) =
    Ok (lit "My number is ***-***-4567",
        [an_entity "PHONE" "555-123-4567" 13 25 "regex" "en"]).
Proof.
  destruct mask_replacements as (Hemail & Hphone & Hother & _ & Hscenario).
  split; [|split; [|split; [|split]]].
  - exact (Hemail (an_entity "EMAIL" "john.smith@example.com" 22 44 "regex" "en")
             (lit "john.smith") (lit "example.com")
             eq_refl eq_refl eq_refl eq_refl).
  - destruct (Hphone (an_entity "PHONE" "555-123-4567" 13 25 "regex" "en")
                eq_refl eq_refl) as (_ & Hdigits & _).
    apply Hdigits; [simpl; lia | repeat constructor].
  - destruct (Hphone (an_entity "PHONE" "1234" 0 4 "regex" "en")
                eq_refl eq_refl) as (_ & _ & Hshort).
    apply Hshort. simpl. lia.
  - apply (Hother (an_entity "CREDIT_CARD" "4111 1111 1111 1111" 5 24 "regex" "en"));
      discriminate.
  - exact (Hscenario (says "en") (finds []) (finds []) (lit "en") []
             eq_refl eq_refl).
Defined.

(** C6 (as stated) fails on the digits: of a number written in pairs the
    mask keeps the last four characters, a space among them, and not the
    last four digits. *)
Lemma mask_phone_last_digits_counterexample :
  fst (detect_pii_entities (says "fr") (finds []) (finds []) appel_text []) =
    Ok [appel_entity] /\
  e_label appel_entity = lit "PHONE" /\
  4 < length (e_text appel_entity) /\
  _get_replacement appel_entity (lit "mask") = Ok (lit "***-***-4 56") /\
  last_digits 4 (e_text appel_entity) = lit "3456" /\
  _get_replacement appel_entity (lit "mask") <>
    Ok (lit "***-***-" ++ last_digits 4 (e_text appel_entity)).
Proof.
  split; [vm_compute; reflexivity|]. split; [reflexivity|].
  split; [simpl; lia|]. split; [reflexivity|]. split; [reflexivity|].
  discriminate.
Qed.

(** * Further properties of the detector *)

(** ** Offsets of the pattern matches *)

Lemma shaped_min_length ic r w : shaped ic r w -> min_length r <= length w.
Proof.
  revert w. induction r as [| |cs lo hi|a IHa b IHb|a IHa]; intros w; simpl.
  - intros ->. done.
  - intros ->. done.
  - by intros (? & _).
  - intros (wa & wb & -> & Ha%IHa & Hb%IHb). rewrite length_app. lia.
  - intros _. lia.
Qed.

(** A reported match is a piece of the text that has the shape of the
    pattern, and the two offsets delimit it. *)
Lemma scan_decompose ic r s prev pos skip before m :
  length before = pos ->
  m ∈ scan ic r prev s pos skip ->
  exists pre w after,
    before ++ s = pre ++ w ++ after /\
    fst m = length pre /\ snd m = length pre + length w /\
    shaped ic r w.
Proof.
  revert prev pos skip before.
  induction s as [|c s IH]; intros prev pos skip before Hpos.
  - destruct skip; simpl; [|by intros ?%elem_of_nil].
    destruct (match_here ic r prev [] pos) as [e|] eqn:Hm;
      [|by intros ?%elem_of_nil].
    intros ->%list_elem_of_singleton.
    apply match_here_shaped in Hm as (w & s' & Hs & Hw & ->).
    exists before, w, s'. by rewrite Hs, Hpos.
  - assert (Hrest : forall prev' skip',
              m ∈ scan ic r prev' s (S pos) skip' ->
              exists pre w after,
                before ++ c :: s = pre ++ w ++ after /\
                fst m = length pre /\ snd m = length pre + length w /\
                shaped ic r w).
    { intros prev' skip' Hin. rewrite cons_middle, app_assoc.
      apply (IH prev' (S pos) skip'); [|done].
      rewrite length_app. simpl. lia. }
    destruct skip; simpl; [|apply Hrest].
    destruct (match_here ic r prev (c :: s) pos) as [e|] eqn:Hm; [|apply Hrest].
    intros [->|Hin]%elem_of_cons; [|by eapply Hrest].
    apply match_here_shaped in Hm as (w & s' & Hs & Hw & ->).
    exists before, w, s'. by rewrite Hs, Hpos.
Qed.

Lemma finditer_decompose ic r text m :
  m ∈ finditer ic r text ->
  exists pre w after,
    text = pre ++ w ++ after /\
    fst m = length pre /\ snd m = length pre + length w /\
    shaped ic r w.
Proof. intros Hin. by apply (scan_decompose ic r text None 0 0 []). Qed.

(** None of the six patterns matches the empty string. *)
Lemma regex_patterns_min_length p :
  p ∈ regex_patterns -> 1 <= min_length (snd p).
Proof.
  unfold regex_patterns. intros Hp.
  repeat (apply elem_of_cons in Hp as [->|Hp]; [vm_compute; lia|]).
  by apply elem_of_nil in Hp.
Qed.

Lemma regex_entity_valid text language p m :
  p ∈ regex_patterns -> m ∈ finditer true (snd p) text ->
  valid_offsets text (regex_entity text language (fst p) m) /\
  length (e_text (regex_entity text language (fst p) m)) = snd m - fst m.
Proof.
  intros Hp (pre & w & after & -> & Hs & He & Hw)%finditer_decompose.
  apply shaped_min_length in Hw.
  pose proof (regex_patterns_min_length p Hp).
  unfold valid_offsets. simpl. rewrite Hs, He.
  rewrite slice_middle, !length_app. split; [lia|]. lia.
Qed.

Lemma spacy_entity_source language labels ents e :
  e ∈ spacy_entities language labels ents ->
  e_source e = lit "spacy" /\ e_language e = language.
Proof. by intros (ent & _ & _ & ->)%spacy_entities_elem_of. Qed.

(** X1: every entity of the result that comes from a pattern has valid
    offsets into the text: [start < end <= len(text)], its text is
    [text[start:end]] and has [end - start] characters. *)
Theorem regex_entities_have_valid_offsets
    (llm : str -> result str) (nlp_en nlp_fr : str -> result (list Span))
    (text : str) (tr : list call) (out : list Entity) (e : Entity) :
  fst (detect_pii_entities llm nlp_en nlp_fr text tr) = Ok out ->
  e ∈ out ->
  e_source e = lit "regex" ->
  e_start e < e_end e /\ e_end e <= length text /\
  e_text e = slice (e_start e) (e_end e) text /\
  length (e_text e) = e_end e - e_start e.
Proof.
  intros Hrun He Hsrc.
  destruct (detect_pii_entities llm nlp_en nlp_fr text tr) as [r tr'] eqn:E.
  simpl in Hrun. subst r.
  apply detect_Ok_inv in E
    as [(_ & -> & _)|(_ & language & ents & _ & _ & -> & _)];
    [by apply elem_of_nil in He|].
  apply aggregate_elem_of in He as [Hs|(p & m & Hp & Hm & ->)].
  - apply spacy_entity_source in Hs as [Hs _]. rewrite Hs in Hsrc. done.
  - destruct (regex_entity_valid text language p m Hp Hm) as [[? ?] ?].
    done.
Qed.

Lemma regex_entities_have_valid_offsets_witness :
  22 < 44 /\ 44 <= length contact_text /\
  lit "john.smith@example.com" = slice 22 44 contact_text.
Proof.
  destruct (regex_entities_have_valid_offsets
              (says "en") (finds contact_names) (finds []) contact_text []
              contact_entities
              (an_entity "EMAIL" "john.smith@example.com" 22 44 "regex" "en")
              ltac:(vm_compute; reflexivity)
              ltac:(right; left) eq_refl)
    as (Hlt & Hle & Htxt & _).
  split; [exact Hlt|]. split; [exact Hle | exact Htxt].
Defined.

(** ** Where an entity comes from *)

(** X2: every entity of the result carries the language code the language
    model returned; it is either a span of the recognizer, with source
    ['spacy'] and the person label of that code, or a match of a pattern,
    with source ['regex'] and the name of the pattern. *)
Theorem entities_carry_language_and_source
    (llm : str -> result str) (nlp_en nlp_fr : str -> result (list Span))
    (text : str) (tr : list call) (out : list Entity) (e : Entity) :
  fst (detect_pii_entities llm nlp_en nlp_fr text tr) = Ok out ->
  e ∈ out ->
  llm text = Ok (e_language e) /\
  ((e_source e = lit "spacy" /\
    e_label e = if str_eqb (e_language e) (lit "en")
                then lit "PERSON" else lit "PER") \/
   (e_source e = lit "regex" /\
    e_label e ∈ [lit "EMAIL"; lit "PHONE"; lit "SSN"; lit "CREDIT_CARD";
                 lit "FRENCH_SSN"; lit "PASSPORT"])).
Proof.
  intros Hrun He.
  destruct (detect_pii_entities llm nlp_en nlp_fr text tr) as [r tr'] eqn:E.
  simpl in Hrun. subst r.
  apply detect_Ok_inv in E
    as [(_ & -> & _)|(_ & language & ents & Hllm & _ & -> & _)];
    [by apply elem_of_nil in He|].
  apply aggregate_elem_of in He as [Hs|(p & m & Hp & Hm & ->)].
  - apply spacy_entities_elem_of in Hs as (ent & _ & Hl%keep_ent_label & ->).
    unfold spacy_entity. cbn [e_language e_source e_label].
    split; [done|]. left. split; [done|].
    unfold selected_labels, sensitive_labels_en, sensitive_labels_fr in Hl.
    destruct (str_eqb language (lit "en"));
      apply elem_of_singleton in Hl; exact Hl.
  - unfold regex_entity. cbn [e_language e_source e_label].
    split; [done|]. right. split; [done|].
    change (fst p ∈ fst <$> regex_patterns).
    apply list_elem_of_fmap. by exists p.
Qed.

Lemma entities_carry_language_and_source_witness :
  says "en" contact_text = Ok (lit "en") /\
  lit "EMAIL" ∈ [lit "EMAIL"; lit "PHONE"; lit "SSN"; lit "CREDIT_CARD";
                 lit "FRENCH_SSN"; lit "PASSPORT"].
Proof.
  destruct (entities_carry_language_and_source
              (says "en") (finds contact_names) (finds []) contact_text []
              contact_entities
              (an_entity "EMAIL" "john.smith@example.com" 22 44 "regex" "en")
              ltac:(vm_compute; reflexivity) ltac:(right; left))
    as (Hllm & [[Hsrc _]|[_ Hlabel]]).
  - discriminate Hsrc.
  - split; [exact Hllm | exact Hlabel].
Defined.

(** ** Detection and redaction together *)


(** The loop of [redact_pii] on a well-formed entity list. *)
Lemma redact_loop_spliced strategy text entities :
  strategy <> lit "block" ->
  StronglySorted (ascending e_start) entities ->
  pairwise_disjoint entities ->
  Forall (valid_offsets text) entities ->
  redact_loop (sorted_reverse e_start entities) strategy text =
    Ok (spliced strategy text 0 entities).
Proof.
  intros Hblock Hs Hd Hv.
  assert (Hch : chained text 0 entities).
  { apply chained_of_sorted_disjoint; [|done..].
    apply Forall_forall. intros; lia. }
  destruct (chained_increasing _ _ _ Hch) as [_ Hinc].
  rewrite (sorted_reverse_increasing _ _ Hinc), redact_loop_rev by done.
  by rewrite (foldr_replace_span _ _ 0).
Qed.

Lemma aggregate_valid text language ents :
  Forall (valid_offsets text)
    (spacy_entities language (selected_labels language) ents) ->
  Forall (valid_offsets text) (aggregate text language ents).
Proof.
  intros Hkept. apply Forall_forall. intros e He.
  apply aggregate_elem_of in He as [Hs|(p & m & Hp & Hm & ->)].
  - by apply (proj1 (Forall_forall _ _) Hkept).
  - by apply regex_entity_valid.
Qed.

(** X3: when the spans the recognizer reported and the filter kept are
    pairwise disjoint and lie inside the text, [redact_pii] under any
    strategy but block returns the text with exactly the spans of the
    detected entities replaced, together with these entities; they are
    sorted, pairwise disjoint and inside the text. *)
Theorem redact_pii_end_to_end
    (llm : str -> result str) (nlp_en nlp_fr : str -> result (list Span))
    (text strategy language : str) (ents : list Span) (tr : list call) :
  is_blank text = false ->
  llm text = Ok language ->
  (if str_eqb language (lit "en") then nlp_en text else nlp_fr text) = Ok ents ->
  pairwise_disjoint (spacy_entities language (selected_labels language) ents) ->
  Forall (valid_offsets text)
    (spacy_entities language (selected_labels language) ents) ->
  strategy <> lit "block" ->
  exists entities,
    fst (detect_pii_entities llm nlp_en nlp_fr text tr) = Ok entities /\
    fst (redact_pii llm nlp_en nlp_fr text strategy tr) =
      Ok (spliced strategy text 0 entities, entities) /\
    StronglySorted (ascending e_start) entities /\
    pairwise_disjoint entities /\
    Forall (valid_offsets text) entities.
Proof.
  intros Hblank Hllm Hnlp Hdis Hval Hblock.
  assert (Hsel : selected_nlp nlp_en nlp_fr language text = Ok ents).
  { unfold selected_nlp. by destruct (str_eqb language (lit "en")). }
  assert (Hrun : detect_pii_entities llm nlp_en nlp_fr text tr =
                 (Ok (aggregate text language ents),
                  tr ++ [CallLanguageModel text; selected_call language text]))
    by by rewrite detect_unfold, Hblank, Hllm, Hsel.
  pose proof (aggregate_sorted text language ents) as Hs.
  pose proof (aggregate_disjoint text language ents Hdis) as Hd.
  pose proof (aggregate_valid text language ents Hval) as Hv.
  exists (aggregate text language ents).
  split; [by rewrite Hrun|]. split; [|done].
  unfold redact_pii, bind, lift, ret. rewrite Hrun.
  by rewrite redact_loop_spliced.
Qed.

Lemma redact_pii_end_to_end_witness :
  exists entities,
    fst (detect_pii_entities (says "en") (finds call_names) (finds [])
           call_text []) = Ok entities /\
    fst (redact_pii (says "en") (finds call_names) (finds [])
           call_text (lit "mask") []) =
      Ok (spliced (lit "mask") call_text 0 entities, entities) /\
    StronglySorted (ascending e_start) entities /\
    pairwise_disjoint entities /\
    Forall (valid_offsets call_text) entities.
Proof.
  apply (redact_pii_end_to_end (says "en") (finds call_names) (finds [])
           call_text (lit "mask") (lit "en") call_names []);
    [reflexivity | reflexivity | reflexivity | | | discriminate].
  - vm_compute. repeat constructor.
  - vm_compute. repeat constructor.
Defined.



(** ** The matcher finds what there is to find *)

Lemma rep_match_complete p lo hi w s' prev pos k :
  lo <= length w -> within hi (length w) ->
  Forall (fun c => p c = true) w ->
  (forall prev', k prev' s' (pos + length w) <> None) ->
  rep_match p lo hi prev (w ++ s') pos k <> None.
Proof.
  intros Hlo Hhi Hall. revert lo hi prev pos Hlo Hhi.
  induction Hall as [|c w Hc Hw IH]; intros lo hi prev pos Hlo Hhi Hk.
  - simpl in Hlo. assert (lo = 0) as -> by lia.
    specialize (Hk prev). simpl in Hk. rewrite Nat.add_0_r in Hk.
    destruct s' as [|c s']; simpl; [done|].
    destruct (p c && may_take hi); [|done].
    by destruct (rep_match p 0 (after_take hi) (Some c) s' (S pos) k).
  - simpl in Hlo, Hhi. simpl. rewrite Hc.
    assert (Htake : may_take hi = true).
    { destruct hi as [[|h]|]; simpl in *; [lia | done | done]. }
    rewrite Htake. simpl.
    assert (Hrec : rep_match p (pred lo) (after_take hi) (Some c) (w ++ s')
                     (S pos) k <> None).
    { apply IH; [lia | |].
      - destruct hi as [[|h]|]; simpl in *; [lia | lia | done].
      - intros prev'. specialize (Hk prev'). simpl in Hk.
        by rewrite <- Nat.add_succ_comm in Hk. }
    by destruct (rep_match p (pred lo) (after_take hi) (Some c) (w ++ s')
                   (S pos) k).
Qed.

Lemma rmatch_complete ic r w s' prev pos k :
  wordb_free r = true -> shaped ic r w ->
  (forall prev', k prev' s' (pos + length w) <> None) ->
  rmatch ic r prev (w ++ s') pos k <> None.
Proof.
  revert w s' prev pos k.
  induction r as [| |cs lo hi|a IHa b IHb|a IHa];
    intros w s' prev pos k Hfree; simpl in Hfree |- *.
  - intros -> Hk. specialize (Hk prev). simpl in Hk.
    by rewrite Nat.add_0_r in Hk.
  - done.
  - intros (Hlo & Hhi & Hall) Hk. by apply rep_match_complete.
  - apply andb_true_iff in Hfree as [Hfa Hfb].
    intros (wa & wb & -> & Ha & Hb) Hk. rewrite <- app_assoc.
    apply IHa; [done | done |].
    intros prev'. apply IHb; [done | done |].
    intros prev''. specialize (Hk prev'').
    by rewrite length_app, Nat.add_assoc in Hk.
  - intros [->|Ha] Hk.
    + specialize (Hk prev). simpl in Hk. rewrite Nat.add_0_r in Hk.
      change ([] ++ s') with s'.
      by destruct (rmatch ic a prev s' pos k).
    + pose proof (IHa w s' prev pos k Hfree Ha Hk).
      by destruct (rmatch ic a prev (w ++ s') pos k).
Qed.

(** Where a string of the shape of a boundary-free pattern begins, the
    pattern matches. *)
Lemma match_here_complete ic r w s' prev pos :
  wordb_free r = true -> shaped ic r w ->
  match_here ic r prev (w ++ s') pos <> None.
Proof.
  intros Hfree Hw. unfold match_here. by apply rmatch_complete.
Qed.

Lemma match_here_nonempty ic r prev s pos e :
  1 <= min_length r ->
  match_here ic r prev s pos = Some e -> pos < e.
Proof.
  intros Hmin (w & s' & _ & Hw%shaped_min_length & ->)%match_here_shaped. lia.
Qed.

(** The scan of [finditer] leaves no place where the pattern matches
    outside the matches it reports. *)
Lemma scan_covers ic r pre rest prev pos skip :
  1 <= min_length r ->
  (forall prev', match_here ic r prev' rest (pos + length pre) <> None) ->
  skip <= length pre ->
  exists m,
    m ∈ scan ic r prev (pre ++ rest) pos skip /\
    fst m <= pos + length pre < snd m.
Proof.
  intros Hmin. revert prev pos skip.
  induction pre as [|c pre IH]; intros prev pos skip Hhere Hskip.
  - simpl in Hskip. assert (skip = 0) as -> by lia.
    specialize (Hhere prev). simpl in *. rewrite Nat.add_0_r in *.
    assert (Hscan : exists e l,
              match_here ic r prev rest pos = Some e /\
              scan ic r prev rest pos 0 = (pos, e) :: l).
    { destruct rest; simpl;
        destruct (match_here ic r prev _ pos) as [e|]; [|done| |done];
        by eexists _, _. }
    destruct Hscan as (e & l & Hm & ->).
    apply match_here_nonempty in Hm; [|done].
    exists (pos, e). split; [left | simpl; lia].
  - assert (Htail : forall prev' skip',
              skip' <= length pre ->
              exists m,
                m ∈ scan ic r prev' (pre ++ rest) (S pos) skip' /\
                fst m <= pos + length (c :: pre) < snd m).
    { intros prev' skip' Hle.
      destruct (IH prev' (S pos) skip') as (m & Hin & Hm); [|done|].
      - intros prev''. specialize (Hhere prev''). simpl in Hhere.
        by rewrite <- Nat.add_succ_comm in Hhere.
      - exists m. split; [done|]. simpl. lia. }
    destruct skip as [|skip]; simpl.
    + destruct (match_here ic r prev (c :: pre ++ rest) pos) as [e|] eqn:Hm.
      * destruct (decide (pos + S (length pre) < e)) as [Hlt|Hge].
        -- exists (pos, e). split; [left | simpl; lia].
        -- destruct (Htail (Some c) (e - pos - 1)) as (m & Hin & Hm');
             [lia|].
           exists m. split; [by right | done].
      * apply Htail. lia.
    + apply Htail. simpl in Hskip. lia.
Qed.

(** The matches [finditer] reports are not empty, come in the order of
    the text and do not overlap. *)
Lemma scan_increasing ic r s prev pos skip :
  1 <= min_length r ->
  Forall (fun m => pos + skip <= fst m /\ fst m < snd m)
         (scan ic r prev s pos skip) /\
  StronglySorted (fun a b => snd a <= fst b) (scan ic r prev s pos skip).
Proof.
  intros Hmin. revert prev pos skip.
  induction s as [|c s IH]; intros prev pos skip.
  - destruct skip; simpl; [|split; constructor].
    destruct (match_here ic r prev [] pos) as [e|] eqn:Hm;
      [|split; constructor].
    apply match_here_nonempty in Hm; [|done].
    split; repeat constructor; simpl; lia.
  - assert (Htail : forall prev' skip',
              Forall (fun m => pos + S skip' <= fst m /\ fst m < snd m)
                     (scan ic r prev' s (S pos) skip') /\
              StronglySorted (fun a b => snd a <= fst b)
                     (scan ic r prev' s (S pos) skip')).
    { intros prev' skip'. destruct (IH prev' (S pos) skip') as [Hf Hs].
      split; [|done]. eapply Forall_impl; [exact Hf|].
      simpl. intros m ?. lia. }
    destruct skip as [|skip]; simpl.
    + destruct (match_here ic r prev (c :: s) pos) as [e|] eqn:Hm.
      * apply match_here_nonempty in Hm; [|done].
        destruct (Htail (Some c) (e - pos - 1)) as [Hf Hs]. split.
        -- constructor; [simpl; lia|].
           eapply Forall_impl; [exact Hf|]. simpl. intros m ?. lia.
        -- constructor; [done|].
           eapply Forall_impl; [exact Hf|]. simpl. intros m ?. lia.
      * destruct (Htail (Some c) 0) as [Hf Hs]. split; [|done].
        eapply Forall_impl; [exact Hf|]. simpl. intros m ?. lia.
    + destruct (Htail (Some c) skip) as [Hf Hs]. split; [|done].
      eapply Forall_impl; [exact Hf|]. simpl. intros m ?. lia.
Qed.

(** ** The PHONE pattern and the patterns declared after it *)

Lemma digit_of_set c :
  set_matches true [Digit] c = true -> isdecimal_char c = true.
Proof.
  destruct c as [[] [] [] [] [] [] [] []]; vm_compute; intros H;
    first [reflexivity | discriminate H].
Qed.

Lemma digit_of_one_two c :
  set_matches true [Chr "1"; Chr "2"] c = true -> isdecimal_char c = true.
Proof.
  destruct c as [[] [] [] [] [] [] [] []]; vm_compute; intros H;
    first [reflexivity | discriminate H].
Qed.

Lemma set_of_digit c :
  isdecimal_char c = true -> set_matches true [Digit] c = true.
Proof.
  intros H. unfold set_matches, item_matches. simpl. by rewrite H.
Qed.

Lemma three_digits (wd : str) :
  3 <= length wd ->
  Forall (fun c => set_matches true [Digit] c = true) wd ->
  exists d1 d2 d3 tl,
    wd = d1 :: d2 :: d3 :: tl /\
    isdecimal_char d1 = true /\ isdecimal_char d2 = true /\
    isdecimal_char d3 = true.
Proof.
  destruct wd as [|d1 [|d2 [|d3 tl]]]; simpl; [lia..|].
  intros _ Hall.
  apply Forall_cons in Hall as [H1%digit_of_set Hall].
  apply Forall_cons in Hall as [H2%digit_of_set Hall].
  apply Forall_cons in Hall as [H3%digit_of_set _].
  by exists d1, d2, d3, tl.
Qed.

(** Three digits are a PHONE match: one digit for each of the three
    compulsory groups. *)
Lemma phone_three_digits d1 d2 d3 :
  isdecimal_char d1 = true -> isdecimal_char d2 = true ->
  isdecimal_char d3 = true ->
  shaped true phone_pattern [d1; d2; d3].
Proof.
  intros H1%set_of_digit H2%set_of_digit H3%set_of_digit.
  unfold phone_pattern. simpl.
  exists [], [d1; d2; d3]. split; [done|]. split; [by left|].
  exists [], [d1; d2; d3]. split; [done|].
  split; [simpl; repeat split; [lia | lia | constructor]|].
  exists [d1], [d2; d3]. split; [done|].
  split; [simpl; repeat split; [lia | lia | by repeat constructor]|].
  exists [], [d2; d3]. split; [done|].
  split; [simpl; repeat split; [lia | lia | constructor]|].
  exists [], [d2; d3]. split; [done|].
  split; [simpl; repeat split; [lia | lia | constructor]|].
  exists [d2], [d3]. split; [done|].
  split; [simpl; repeat split; [lia | lia | by repeat constructor]|].
  exists [], [d3]. split; [done|].
  split; [simpl; repeat split; [lia | lia | constructor]|].
  exists [d3], []. split; [done|].
  split; [simpl; repeat split; [lia | lia | by repeat constructor]|].
  done.
Qed.

(** Every match of SSN, CREDIT_CARD, FRENCH_SSN and PASSPORT holds three
    digits in a row. *)
Lemma later_pattern_digit_run p w :
  p ∈ drop 2 regex_patterns -> shaped true (snd p) w -> has_digit_run w.
Proof.
  unfold regex_patterns. simpl drop. intros Hp.
  apply elem_of_cons in Hp as [->|Hp]; [|apply elem_of_cons in Hp as [->|Hp]];
    [| |apply elem_of_cons in Hp as [->|Hp];
        [|apply elem_of_cons in Hp as [->|Hp]; [|by apply elem_of_nil in Hp]]];
    simpl.
  - intros (w0 & w1' & -> & -> & w1 & rest & -> & (Hlo & _ & Hall) & _).
    destruct (three_digits w1 Hlo Hall) as (d1 & d2 & d3 & tl & -> & ? & ? & ?).
    by exists [], d1, d2, d3, (tl ++ rest).
  - intros (w0 & w1' & -> & -> & w1 & rest & -> & (Hlo & _ & Hall) & _).
    destruct (three_digits w1 ltac:(lia) Hall)
      as (d1 & d2 & d3 & tl & -> & ? & ? & ?).
    by exists [], d1, d2, d3, (tl ++ rest).
  - intros (w0 & w1' & -> & -> & wc & r1 & -> & _ & wd & rest & -> &
            (Hlo & _ & Hall) & _).
    destruct (three_digits wd ltac:(lia) Hall)
      as (d1 & d2 & d3 & tl & -> & ? & ? & ?).
    by exists wc, d1, d2, d3, (tl ++ rest).
  - intros (w0 & w1' & -> & -> & wc & r1 & -> & _ & wd & rest & -> &
            (Hlo & _ & Hall) & _).
    destruct (three_digits wd ltac:(lia) Hall)
      as (d1 & d2 & d3 & tl & -> & ? & ? & ?).
    by exists wc, d1, d2, d3, (tl ++ rest).
Qed.

(** Matches that do not overlap are all accepted. *)
Lemma add_matches_disjoint text language name ms0 ms :
  StronglySorted (fun a b : nat * nat => snd a <= fst b) (ms0 ++ ms) ->
  foldl (add_match text language name)
        (regex_entity text language name <$> ms0) ms =
  regex_entity text language name <$> (ms0 ++ ms).
Proof.
  revert ms0. induction ms as [|m ms IH]; intros ms0 Hs; simpl.
  - by rewrite app_nil_r.
  - unfold add_match at 2.
    assert (Hov : overlap (fst m) (snd m)
                    (regex_entity text language name <$> ms0) = false).
    { apply overlap_false, Forall_fmap, Forall_forall. intros m0 Hm0. simpl.
      apply intersects_false. right. simpl.
      apply (StronglySorted_app_1_elem_of _ _ _ _ _ Hs Hm0). left. }
    rewrite Hov.
    replace (ms0 ++ m :: ms) with ((ms0 ++ [m]) ++ ms) in *
      by (by rewrite <- app_assoc).
    rewrite <- (IH (ms0 ++ [m]) Hs). by rewrite fmap_app.
Qed.

(** Matches that all meet an accepted entity leave the list as it is. *)
Lemma add_matches_rejected text language name entities ms :
  (forall m, m ∈ ms -> overlap (fst m) (snd m) entities = true) ->
  foldl (add_match text language name) entities ms = entities.
Proof.
  induction ms as [|m ms IH]; intros Hall; simpl; [done|].
  unfold add_match at 2. rewrite Hall by left.
  apply IH. intros m' Hm'. apply Hall. by right.
Qed.

Lemma contains_app c (a b : str) :
  contains c (a ++ b) = contains c a || contains c b.
Proof. unfold contains. apply existsb_app. Qed.

(** Without an at sign there is no EMAIL match. *)
Lemma email_needs_at text :
  contains "@" text = false -> finditer true email_pattern text = [].
Proof.
  intros Hat. destruct (finditer true email_pattern text) as [|m l] eqn:E;
    [done|].
  assert (Hm : m ∈ finditer true email_pattern text) by (rewrite E; left).
  apply finditer_decompose in Hm as (pre & w & after & -> & _ & _ & Hw).
  apply email_shaped in Hw as (local & domain & -> & _ & _).
  rewrite (contains_app _ pre), (contains_app _ _ after), contains_middle in Hat.
  by rewrite orb_true_r in Hat.
Qed.

(** A match of one of the four later patterns meets a PHONE match. *)
Lemma later_match_overlaps text language p m :
  p ∈ drop 2 regex_patterns -> m ∈ finditer true (snd p) text ->
  overlap (fst m) (snd m) (phone_entities text language) = true.
Proof.
  intros Hp (pre & w & after & -> & Hs & He & Hw)%finditer_decompose.
  apply (later_pattern_digit_run p w Hp) in Hw
    as (pre' & d1 & d2 & d3 & post & -> & H1 & H2 & H3).
  destruct (scan_covers true phone_pattern (pre ++ pre')
              ([d1; d2; d3] ++ post ++ after) None 0 0)
    as (pm & Hpm & Hlo & Hhi); [vm_compute; lia | | lia |].
  { intros prev'. apply match_here_complete; [reflexivity|].
    by apply phone_three_digits. }
  assert (Htext : pre ++ (pre' ++ d1 :: d2 :: d3 :: post) ++ after =
                  (pre ++ pre') ++ [d1; d2; d3] ++ post ++ after).
  { by rewrite <- !app_assoc. }
  unfold overlap. apply existsb_exists.
  exists (regex_entity (pre ++ (pre' ++ d1 :: d2 :: d3 :: post) ++ after)
            language (lit "PHONE") pm).
  split.
  - apply list_elem_of_In. unfold phone_entities.
    apply list_elem_of_fmap. exists pm. split; [done|].
    unfold finditer. by rewrite Htext.
  - unfold intersects. simpl. rewrite Hs, He.
    rewrite length_app in Hlo, Hhi. rewrite !length_app. simpl.
    apply negb_true_iff, orb_false_iff.
    split; apply Nat.leb_gt; lia.
Qed.

(** In a text without an at sign the loop over the patterns, started
    with nothing, ends with the PHONE matches and nothing else. *)
Lemma regex_loop_phone_only text language :
  contains "@" text = false ->
  regex_loop text language [] = phone_entities text language.
Proof.
  intros Hat. unfold regex_loop.
  assert (Hsplit : regex_patterns =
            [(lit "EMAIL", email_pattern); (lit "PHONE", phone_pattern)]
            ++ drop 2 regex_patterns) by reflexivity.
  rewrite Hsplit, foldl_app. cbn [foldl].
  unfold add_pattern at 2 3. cbn [fst snd].
  rewrite (email_needs_at text Hat). cbn [foldl].
  assert (Hphone : foldl (add_match text language (lit "PHONE")) []
                     (finditer true phone_pattern text) =
                   phone_entities text language).
  { apply (add_matches_disjoint text language (lit "PHONE") []).
    apply scan_increasing. vm_compute. lia. }
  rewrite Hphone.
  generalize (later_match_overlaps text language).
  generalize (drop 2 regex_patterns). intros ps Hps.
  induction ps as [|p ps IH]; [done|]. cbn [foldl].
  unfold add_pattern at 2. rewrite add_matches_rejected.
  - apply IH. intros p' m Hp'. apply Hps. by right.
  - intros m Hm. apply (Hps p); [left | done].
Qed.

Lemma sorted_of_increasing {A} (key : A -> nat) (l : list A) :
  StronglySorted (fun a b => key a < key b) l -> sorted key l = l.
Proof.
  induction 1 as [|x l Hl IH Hx]; simpl; [done|].
  fold (sorted key l). rewrite IH.
  destruct l as [|y l']; simpl; [done|].
  apply Forall_cons in Hx as [Hxy _].
  by rewrite (proj2 (Nat.leb_le _ _)) by lia.
Qed.

Lemma unique_loop_of_increasing seen l :
  (forall x, x ∈ l -> entity_key x ∉ seen) ->
  StronglySorted (fun a b => e_start a < e_start b) l ->
  unique_loop seen l = l.
Proof.
  intros Hseen Hs. revert seen Hseen.
  induction Hs as [|x l Hl IH Hx]; intros seen Hseen; simpl; [done|].
  rewrite bool_decide_eq_false_2 by (apply Hseen; left).
  f_equal. apply IH. intros y Hy.
  pose proof (proj1 (Forall_forall _ _) Hx y Hy) as Hlt.
  intros [Heq%elem_of_singleton|Hin]%elem_of_union.
  - apply (f_equal (fun k : str * nat * nat => snd (fst k))) in Heq.
    simpl in Heq, Hlt. lia.
  - by apply (Hseen y); [right|].
Qed.

Lemma phone_entities_increasing text language :
  StronglySorted (fun a b => e_start a < e_start b)
    (phone_entities text language).
Proof.
  unfold phone_entities, finditer.
  destruct (scan_increasing true phone_pattern text None 0 0) as [Hne Hs];
    [vm_compute; lia|].
  revert Hne Hs. generalize (scan true phone_pattern None text 0 0).
  intros ms Hne Hs.
  induction Hs as [|m ms Hms IH Hm]; simpl; [constructor|].
  apply Forall_cons in Hne as [[_ Hlt] Hne].
  constructor; [by apply IH|].
  apply Forall_fmap, Forall_forall. intros m' Hm'. simpl.
  pose proof (proj1 (Forall_forall _ _) Hm m' Hm') as Hle.
  simpl in Hle, Hlt. lia.
Qed.

(** X5: in a text without an at sign in which the recognizer finds no
    name, detection returns exactly the matches of the PHONE pattern, in
    text order: every match of SSN, CREDIT_CARD, FRENCH_SSN or PASSPORT
    holds three digits in a row, which PHONE, declared before them, has
    matched already, so none of these four labels is ever reported. *)
Theorem phone_pattern_shadows_later_patterns
    (llm : str -> result str) (nlp_en nlp_fr : str -> result (list Span))
    (text language : str) (ents : list Span) (tr : list call) :
  is_blank text = false ->
  llm text = Ok language ->
  (if str_eqb language (lit "en") then nlp_en text else nlp_fr text) = Ok ents ->
  spacy_entities language (selected_labels language) ents = [] ->
  contains "@" text = false ->
  fst (detect_pii_entities llm nlp_en nlp_fr text tr) =
    Ok (regex_entity text language (lit "PHONE")
          <$> finditer true phone_pattern text) /\
  (forall out e,
     fst (detect_pii_entities llm nlp_en nlp_fr text tr) = Ok out ->
     e ∈ out -> e_label e = lit "PHONE").
Proof.
  intros Hblank Hllm Hnlp Hkept Hat.
  assert (Hsel : selected_nlp nlp_en nlp_fr language text = Ok ents).
  { unfold selected_nlp. by destruct (str_eqb language (lit "en")). }
  assert (Hrun : fst (detect_pii_entities llm nlp_en nlp_fr text tr) =
                 Ok (phone_entities text language)).
  { rewrite detect_unfold, Hblank, Hllm, Hsel. simpl. f_equal.
    unfold aggregate. rewrite Hkept, (regex_loop_phone_only _ _ Hat).
    pose proof (phone_entities_increasing text language) as Hinc.
    unfold unique_entities.
    rewrite unique_loop_of_increasing;
      [by apply sorted_of_increasing | | done].
    intros x _. apply not_elem_of_empty. }
  split; [exact Hrun|].
  intros out e. rewrite Hrun. intros [= <-].
  unfold phone_entities. by intros (m & -> & _)%list_elem_of_fmap.
Qed.

Lemma phone_pattern_shadows_later_patterns_witness :
  fst (detect_pii_entities (says "en") (finds []) (finds []) papers_text []) =
    Ok papers_entities.
Proof.
  destruct (phone_pattern_shadows_later_patterns
              (says "en") (finds []) (finds []) papers_text (lit "en") [] []
              eq_refl eq_refl eq_refl eq_refl eq_refl) as [Hrun _].
  rewrite Hrun. vm_compute. reflexivity.
Defined.

(** * [chatbot.py] *)

(** ** [truncate_content] *)

Lemma join_cons sep p q rest :
  join sep (p :: q :: rest) = p ++ sep ++ join sep (q :: rest).
Proof. reflexivity. Qed.

(** Splitting and joining on the same character is the identity. *)
Lemma join_split sep s : join [sep] (split sep s) = s.
Proof.
  induction s as [|c s IH]; simpl; [done|].
  destruct (split_nonempty sep s) as (p & ps & Hs). rewrite Hs in IH |- *.
  destruct (Ascii.eqb_spec c sep) as [->|_].
  - rewrite join_cons, IH. done.
  - destruct ps as [|q ps]; simpl in IH |- *; by rewrite <- IH.
Qed.

Lemma split_lines_free sep s :
  Forall (fun line => contains sep line = false) (split sep s).
Proof.
  induction s as [|c s IH]; simpl; [by repeat constructor|].
  destruct (Ascii.eqb_spec c sep) as [->|Hne].
  - by constructor.
  - destruct (split_nonempty sep s) as (p & ps & Hs). rewrite Hs in IH |- *.
    apply Forall_cons in IH as [Hp Hps]. constructor; [|done].
    unfold contains in *. simpl. rewrite Hp, orb_false_r.
    apply Ascii.eqb_neq. congruence.
Qed.

Lemma split_join sep lines :
  lines <> [] ->
  Forall (fun line => contains sep line = false) lines ->
  split sep (join [sep] lines) = lines.
Proof.
  intros Hne Hfree. induction Hfree as [|p rest Hp Hrest IH]; [done|].
  destruct rest as [|q rest]; [by apply split_without|].
  rewrite join_cons.
  change ([sep] ++ join [sep] (q :: rest)) with (sep :: join [sep] (q :: rest)).
  rewrite split_first by done. by rewrite IH.
Qed.

Lemma join_app sep (l1 l2 : list str) :
  l1 <> [] -> l2 <> [] ->
  join sep (l1 ++ l2) = join sep l1 ++ sep ++ join sep l2.
Proof.
  intros H1 H2. induction l1 as [|p l1 IH]; [done|].
  destruct l1 as [|q l1].
  - destruct l2; [done|]. reflexivity.
  - change ((p :: q :: l1) ++ l2) with (p :: q :: (l1 ++ l2)).
    rewrite !join_cons. change (q :: l1 ++ l2) with ((q :: l1) ++ l2).
    rewrite IH by done. by rewrite <- !app_assoc.
Qed.

Lemma string_of_uint_free u :
  contains newline (lit (NilEmpty.string_of_uint u)) = false.
Proof. induction u; simpl; [done|exact IHu..]. Qed.

Lemma str_of_int_free n : contains newline (str_of_int n) = false.
Proof.
  unfold str_of_int. destruct (Z.to_int n) as [u|u]; simpl;
    destruct u; simpl; try reflexivity; apply string_of_uint_free.
Qed.

Lemma notice_line_free n :
  contains newline
    (lit "[yellow]... [content truncated - " ++ str_of_int n
     ++ lit " lines omitted][/yellow]") = false.
Proof.
  rewrite !contains_app, str_of_int_free. reflexivity.
Qed.

Lemma slice_to_nat {A} (n : nat) (l : list A) :
  slice_to (Z.of_nat n) l = take n l.
Proof.
  unfold slice_to. rewrite (proj2 (Z.leb_le _ _)) by lia.
  by rewrite Nat2Z.id.
Qed.

Lemma truncate_content_long content (max_lines : nat) :
  max_lines < length (split newline content) ->
  truncate_content content (Z.of_nat max_lines) =
    join [newline] (take max_lines (split newline content))
    ++ truncation_notice
         (Z.of_nat (length (split newline content) - max_lines)).
Proof.
  intros Hlong. unfold truncate_content.
  rewrite (proj2 (Z.leb_gt _ _)) by lia.
  rewrite slice_to_nat. do 2 f_equal. lia.
Qed.

(** X6: a content of at most [max_lines] lines is returned as it is; a
    longer one is cut after its first [max_lines] lines, which are kept
    character for character as a prefix of the content, and the notice
    appended gives the number of lines left out. *)
Theorem truncate_content_keeps_prefix (content : str) (max_lines : nat) :
  let lines := split newline content in
  (length lines <= max_lines ->
   truncate_content content (Z.of_nat max_lines) = content) /\
  (max_lines < length lines ->
   exists dropped,
     content = join [newline] (take max_lines lines) ++ dropped /\
     truncate_content content (Z.of_nat max_lines) =
       join [newline] (take max_lines lines)
       ++ [newline; newline]
       ++ lit "[yellow]... [content truncated - "
       ++ str_of_int (Z.of_nat (length lines - max_lines))
       ++ lit " lines omitted][/yellow]").
Proof.
  intros lines. subst lines. split.
  - intros Hshort. unfold truncate_content.
    by rewrite (proj2 (Z.leb_le _ _)) by lia.
  - intros Hlong. rewrite (truncate_content_long _ _ Hlong).
    destruct max_lines as [|n].
    + exists content. by rewrite take_0.
    + exists ([newline] ++ join [newline] (drop (S n) (split newline content))).
      split; [|done].
      rewrite <- (join_split newline content) at 1.
      rewrite <- (take_drop (S n) (split newline content)) at 1.
      apply join_app.
      * destruct (split newline content); simpl in *; [lia | done].
      * intros Hnil. apply (f_equal length) in Hnil.
        rewrite length_drop in Hnil. simpl in Hnil. lia.
Qed.

Lemma truncate_content_keeps_prefix_witness :
  truncate_content clauses_text 2 =
    lit "Article 1" ++ [newline] ++ lit "Article 2" ++ [newline; newline]
    ++ lit "[yellow]... [content truncated - 1 lines omitted][/yellow]".
Proof.
  destruct (truncate_content_keeps_prefix clauses_text 2) as [_ Hlong].
  destruct (Hlong ltac:(vm_compute; lia)) as (dropped & _ & Hcut).
  exact Hcut.
Defined.

(** X7: the result of a cut at [max_lines >= 1] has [max_lines + 2]
    lines, two more than the limit; cutting it again at the same limit
    keeps the same lines and says that 2 lines were left out. *)
Theorem truncate_content_line_count (content : str) (max_lines : nat) :
  1 <= max_lines ->
  max_lines < length (split newline content) ->
  length (split newline (truncate_content content (Z.of_nat max_lines))) =
    max_lines + 2 /\
  truncate_content (truncate_content content (Z.of_nat max_lines))
                   (Z.of_nat max_lines) =
    join [newline] (take max_lines (split newline content))
    ++ truncation_notice 2.
Proof.
  intros Hpos Hlong.
  set (kept := take max_lines (split newline content)).
  set (notice := lit "[yellow]... [content truncated - "
                 ++ str_of_int (Z.of_nat (length (split newline content)
                                          - max_lines))
                 ++ lit " lines omitted][/yellow]").
  assert (Hkept : length kept = max_lines).
  { unfold kept. rewrite length_take. lia. }
  assert (Hcut : truncate_content content (Z.of_nat max_lines) =
                 join [newline] (kept ++ [[]; notice])).
  { rewrite (truncate_content_long _ _ Hlong). fold kept.
    rewrite join_app; [done | | done].
    intros Hnil. rewrite Hnil in Hkept. simpl in Hkept. lia. }
  assert (Hlines : split newline (truncate_content content (Z.of_nat max_lines))
                   = kept ++ [[]; notice]).
  { rewrite Hcut. apply split_join; [by destruct kept|].
    apply Forall_app. split.
    - unfold kept. apply Forall_take, split_lines_free.
    - constructor; [done|]. constructor; [apply notice_line_free | done]. }
  assert (Hlen : length (kept ++ [[]; notice]) = max_lines + 2).
  { rewrite length_app, Hkept. done. }
  split; [by rewrite Hlines|].
  rewrite (truncate_content_long (truncate_content content (Z.of_nat max_lines))
             max_lines) by (rewrite Hlines, Hlen; lia).
  rewrite Hlines, Hlen.
  rewrite take_app_length' by done.
  do 2 f_equal. lia.
Qed.

Lemma truncate_content_line_count_witness :
  length (split newline (truncate_content clauses_text 2)) = 4 /\
  truncate_content (truncate_content clauses_text 2) 2 =
    lit "Article 1" ++ [newline] ++ lit "Article 2" ++ truncation_notice 2.
Proof.
  exact (truncate_content_line_count clauses_text 2
           ltac:(lia) ltac:(vm_compute; lia)).
Defined.

(** ** [retrieve_context] *)

Lemma searches_app tr1 tr2 : searches (tr1 ++ tr2) = searches tr1 ++ searches tr2.
Proof. unfold searches. apply omap_app. Qed.

Lemma searches_detector calls : searches (DetectorCall <$> calls) = [].
Proof. induction calls as [|c calls IH]; [done|]. exact IH. Qed.

Section RetrieveContextFacts.

Variable llm : str -> result str.
Variable nlp_en nlp_fr : str -> result (list Span).
Variable Meta : Type.
Variable str_of_meta : Meta -> str.
Variable similarity_search : str -> nat -> result (list (Document Meta)).

(** In fast mode the loop over the documents calls nothing. *)
Lemma process_docs_fast docs tr :
  process_docs llm nlp_en nlp_fr Meta false docs tr =
  (Ok (unprotected <$> docs), tr).
Proof.
  revert tr. induction docs as [|doc docs IH]; intros tr; [done|].
  cbn [process_docs]. unfold chat_bind, process_doc, chat_ret.
  cbv beta iota. by rewrite IH.
Qed.

Lemma process_docs_privacy_cons doc docs tr :
  process_docs llm nlp_en nlp_fr Meta true (doc :: docs) tr =
  match redact_pii llm nlp_en nlp_fr (page_content doc) (lit "redact") [] with
  | (Raise e, calls) => (Raise e, tr ++ (DetectorCall <$> calls))
  | (Ok redacted, calls) =>
      match process_docs llm nlp_en nlp_fr Meta true docs
              (tr ++ (DetectorCall <$> calls)) with
      | (Ok rest, tr') =>
          (Ok (mkProcessedDoc (page_content doc) (fst redacted) (snd redacted)
                 (metadata doc) :: rest), tr')
      | (Raise e, tr') => (Raise e, tr')
      end
  end.
Proof.
  cbn [process_docs]. unfold process_doc, chat_bind, run_detector, chat_ret.
  destruct (redact_pii llm nlp_en nlp_fr (page_content doc) (lit "redact") [])
    as [[redacted|e] calls]; cbn [fst snd]; [|done].
  by destruct (process_docs llm nlp_en nlp_fr Meta true docs
                 (tr ++ (DetectorCall <$> calls))) as [[rest|e] tr'].
Qed.

Lemma retrieve_context_privacy_unfold query tr :
  retrieve_context llm nlp_en nlp_fr Meta str_of_meta similarity_search
    true query tr =
  match redact_pii llm nlp_en nlp_fr query (lit "redact") [] with
  | (Raise e, calls) => (Raise e, tr ++ (DetectorCall <$> calls))
  | (Ok redacted, calls) =>
      match similarity_search (fst redacted) 2 with
      | Raise e =>
          (Raise e,
           (tr ++ (DetectorCall <$> calls))
           ++ [SimilaritySearch (fst redacted) 2])
      | Ok docs =>
          match process_docs llm nlp_en nlp_fr Meta true docs
                  ((tr ++ (DetectorCall <$> calls))
                   ++ [SimilaritySearch (fst redacted) 2]) with
          | (Ok processed, tr') =>
              (Ok (serialize Meta str_of_meta processed, processed), tr')
          | (Raise e, tr') => (Raise e, tr')
          end
      end
  end.
Proof.
  unfold retrieve_context, chat_bind, run_detector, chat_ret.
  destruct (redact_pii llm nlp_en nlp_fr query (lit "redact") [])
    as [[redacted|e] calls]; cbn [fst snd]; [|done].
  destruct (similarity_search redacted.1 2) as [docs|e]; [|done].
  by destruct (process_docs llm nlp_en nlp_fr Meta true docs _)
       as [[processed|e] tr'].
Qed.

(** In privacy mode every document goes through [redact_pii], and only
    the detector is called. *)
Lemma process_docs_privacy docs tr processed tr' :
  process_docs llm nlp_en nlp_fr Meta true docs tr = (Ok processed, tr') ->
  Forall2 (fun doc pd =>
             original_content pd = page_content doc /\
             pd_metadata pd = metadata doc /\
             fst (redact_pii llm nlp_en nlp_fr (page_content doc) (lit "redact") [])
               = Ok (safe_content pd, pii_detected pd))
          docs processed /\
  searches tr' = searches tr.
Proof.
  revert tr processed tr'.
  induction docs as [|doc docs IH]; intros tr processed tr'.
  - intros [= <- <-]. split; [constructor | done].
  - rewrite process_docs_privacy_cons.
    destruct (redact_pii llm nlp_en nlp_fr (page_content doc) (lit "redact") [])
      as [[[safe found]|e] calls] eqn:Hred; [|done].
    destruct (process_docs llm nlp_en nlp_fr Meta true docs
                (tr ++ (DetectorCall <$> calls)))
      as [[rest|e] tr''] eqn:Hrest; [|done].
    intros [= <- <-].
    apply IH in Hrest as [Hall Hs]. split.
    + constructor; [|done]. cbn [original_content pd_metadata safe_content
                                 pii_detected fst snd].
      rewrite ?Hred. done.
    + by rewrite Hs, searches_app, searches_detector, app_nil_r.
Qed.

(** A document on which detection fails makes the loop fail. *)
Lemma process_docs_failure docs doc e tr :
  doc ∈ docs ->
  fst (redact_pii llm nlp_en nlp_fr (page_content doc) (lit "redact") []) = Raise e ->
  exists e',
    fst (process_docs llm nlp_en nlp_fr Meta true docs tr) = Raise e'.
Proof.
  revert tr. induction docs as [|d docs IH]; intros tr Hin Hfail;
    [by apply elem_of_nil in Hin|].
  rewrite process_docs_privacy_cons.
  destruct (redact_pii llm nlp_en nlp_fr (page_content d) (lit "redact") [])
    as [[[safe found]|e0] calls] eqn:Hred; [|by eexists].
  apply elem_of_cons in Hin as [->|Hin].
  { rewrite Hred in Hfail. done. }
  destruct (IH (tr ++ (DetectorCall <$> calls)) Hin Hfail) as (e' & He').
  destruct (process_docs llm nlp_en nlp_fr Meta true docs
              (tr ++ (DetectorCall <$> calls))) as [[rest|e1] tr''];
    [done | by eexists].
Qed.

End RetrieveContextFacts.

(** X8: whatever the tool returns in privacy mode, the vector store was
    searched once, for two documents, with the query as [redact_pii]
    rewrote it; every document returned keeps its original content and
    metadata next to the content [redact_pii] rewrote, and the text
    handed to the language model is made of the rewritten contents. *)
Theorem retrieve_context_privacy_mode
    (llm : str -> result str) (nlp_en nlp_fr : str -> result (list Span))
    (Meta : Type) (str_of_meta : Meta -> str)
    (similarity_search : str -> nat -> result (list (Document Meta)))
    (query serialized : str) (processed : list (ProcessedDoc Meta))
    (tr tr' : list chat_call) :
  retrieve_context llm nlp_en nlp_fr Meta str_of_meta similarity_search
    true query tr = (Ok (serialized, processed), tr') ->
  exists safe_query detected docs,
    fst (redact_pii llm nlp_en nlp_fr query (lit "redact") []) =
      Ok (safe_query, detected) /\
    similarity_search safe_query 2 = Ok docs /\
    searches tr' = searches tr ++ [(safe_query, 2)] /\
    Forall2 (fun doc pd =>
               original_content pd = page_content doc /\
               pd_metadata pd = metadata doc /\
               fst (redact_pii llm nlp_en nlp_fr (page_content doc)
                      (lit "redact") []) =
                 Ok (safe_content pd, pii_detected pd))
            docs processed /\
    serialized =
      join [newline; newline]
        ((fun pd => lit "Source: " ++ str_of_meta (pd_metadata pd)
                    ++ [newline] ++ lit "Content: " ++ safe_content pd)
         <$> processed).
Proof.
  rewrite retrieve_context_privacy_unfold.
  destruct (redact_pii llm nlp_en nlp_fr query (lit "redact") [])
    as [[[safe_query detected]|e] calls] eqn:Hred; [|done].
  cbn [fst].
  destruct (similarity_search safe_query 2) as [docs|e] eqn:Hsearch; [|done].
  destruct (process_docs llm nlp_en nlp_fr Meta true docs
              ((tr ++ (DetectorCall <$> calls))
               ++ [SimilaritySearch safe_query 2]))
    as [[processed'|e] tr''] eqn:Hdocs; [|done].
  intros [= <- <- <-].
  apply process_docs_privacy in Hdocs as [Hall Hs].
  exists safe_query, detected, docs.
  split; [done|]. split; [done|]. split; [|split; [done|reflexivity]].
  by rewrite Hs, !searches_app, searches_detector, app_nil_r.
Qed.

Lemma retrieve_context_privacy_mode_witness :
  searches (snd (retrieve_context (says "en") signer signer str id contract_store
                   true who_signed [])) =
    [(lit "Did [REDACTED_PERSON] sign?", 2)].
Proof.
  destruct (retrieve_context (says "en") signer signer str id contract_store
              true who_signed []) as [[[serialized processed]|e] tr'] eqn:E;
    [|vm_compute in E; discriminate E].
  destruct (retrieve_context_privacy_mode _ _ _ _ _ _ _ _ _ _ _ E)
    as (safe_query & detected & docs & Hred & _ & Hs & _).
  vm_compute in Hred. injection Hred as <- _. exact Hs.
Defined.

(** X9: in fast mode the tool calls the vector store with the query as
    it was given and calls nothing else, the detector least of all; the
    documents go out with their content unchanged and no entity. *)
Theorem retrieve_context_fast_mode
    (llm : str -> result str) (nlp_en nlp_fr : str -> result (list Span))
    (Meta : Type) (str_of_meta : Meta -> str)
    (similarity_search : str -> nat -> result (list (Document Meta)))
    (query : str) (tr : list chat_call) :
  retrieve_context llm nlp_en nlp_fr Meta str_of_meta similarity_search
    false query tr =
  (match similarity_search query 2 with
   | Ok docs =>
       Ok (join [newline; newline]
             ((fun doc => lit "Source: " ++ str_of_meta (metadata doc)
                          ++ [newline] ++ lit "Content: " ++ page_content doc)
              <$> docs),
           (fun doc => mkProcessedDoc (page_content doc) (page_content doc)
                         [] (metadata doc)) <$> docs)
   | Raise e => Raise e
   end,
   tr ++ [SimilaritySearch query 2]).
Proof.
  unfold retrieve_context. unfold chat_bind at 1 2. unfold chat_ret at 1.
  destruct (similarity_search query 2) as [docs|e]; [|done].
  unfold chat_bind. rewrite process_docs_fast. unfold chat_ret.
  do 3 f_equal. unfold serialize. f_equal.
  rewrite <- list_fmap_compose. reflexivity.
Qed.

(** X10: in privacy mode a failure of detection on the query makes the
    tool fail with it before the vector store is searched, and a failure
    of detection on any document found makes the tool fail: nothing is
    returned unredacted in place of the error. *)
Theorem retrieve_context_fails_with_detection
    (llm : str -> result str) (nlp_en nlp_fr : str -> result (list Span))
    (Meta : Type) (str_of_meta : Meta -> str)
    (similarity_search : str -> nat -> result (list (Document Meta)))
    (query : str) (tr : list chat_call) :
  (forall e,
     fst (redact_pii llm nlp_en nlp_fr query (lit "redact") []) = Raise e ->
     fst (retrieve_context llm nlp_en nlp_fr Meta str_of_meta similarity_search
            true query tr) = Raise e /\
     searches (snd (retrieve_context llm nlp_en nlp_fr Meta str_of_meta
                      similarity_search true query tr)) = searches tr) /\
  (forall safe_query detected docs doc e,
     fst (redact_pii llm nlp_en nlp_fr query (lit "redact") []) =
       Ok (safe_query, detected) ->
     similarity_search safe_query 2 = Ok docs ->
     doc ∈ docs ->
     fst (redact_pii llm nlp_en nlp_fr (page_content doc) (lit "redact") []) =
       Raise e ->
     exists e',
       fst (retrieve_context llm nlp_en nlp_fr Meta str_of_meta
              similarity_search true query tr) = Raise e').
Proof.
  split.
  - intros e Hfail. rewrite retrieve_context_privacy_unfold.
    destruct (redact_pii llm nlp_en nlp_fr query (lit "redact") [])
      as [[r|e0] calls]; simpl in Hfail; [done|].
    injection Hfail as ->. simpl.
    by rewrite searches_app, searches_detector, app_nil_r.
  - intros safe_query detected docs doc e Hred Hsearch Hin Hfail.
    rewrite retrieve_context_privacy_unfold.
    destruct (redact_pii llm nlp_en nlp_fr query (lit "redact") [])
      as [[r|e0] calls]; simpl in Hred; [|done].
    injection Hred as ->. cbn [fst]. rewrite Hsearch.
    destruct (process_docs_failure llm nlp_en nlp_fr Meta docs doc e
                ((tr ++ (DetectorCall <$> calls))
                 ++ [SimilaritySearch safe_query 2]) Hin Hfail) as (e' & He').
    destruct (process_docs llm nlp_en nlp_fr Meta true docs _)
      as [[rest|e1] tr'']; simpl in He'; [done|].
    by exists e1.
Qed.

Lemma retrieve_context_fails_with_detection_witness :
  fst (retrieve_context (down "ollama") signer signer str id contract_store
         true who_signed []) = Raise (ExternalError (lit "ollama")) /\
  searches (snd (retrieve_context (down "ollama") signer signer str id
                   contract_store true who_signed [])) = [].
Proof.
  destruct (retrieve_context_fails_with_detection
              (down "ollama") signer signer str id contract_store who_signed [])
    as [Hquery _].
  exact (Hquery (ExternalError (lit "ollama")) ltac:(vm_compute; reflexivity)).
Defined.

(** * Further properties of the detector: e-mail addresses *)

Lemma add_patterns_candidates text language ps entities :
  foldl (add_pattern text language) entities ps =
  foldl (add_candidate text language) entities
    (flat_map (fun p => pair (fst p) <$> finditer true (snd p) text) ps).
Proof.
  revert entities.
  induction ps as [|p ps IH]; intros entities; simpl; [done|].
  rewrite foldl_app, IH. f_equal.
  unfold add_pattern. generalize (finditer true p.2 text). intros ms.
  revert entities. induction ms as [|m ms IHm]; intros entities; simpl; [done|].
  by rewrite IHm.
Qed.

Lemma add_matches_as_candidates text language name entities ms :
  foldl (add_match text language name) entities ms =
  foldl (add_candidate text language) entities (pair name <$> ms).
Proof.
  revert entities. induction ms as [|m ms IH]; intros entities; simpl; [done|].
  by rewrite IH.
Qed.

Lemma add_matches_grow text language name entities ms :
  exists later,
    foldl (add_match text language name) entities ms = entities ++ later.
Proof.
  revert entities. induction ms as [|m ms IH]; intros entities; simpl.
  - exists []. by rewrite app_nil_r.
  - unfold add_match at 2.
    destruct (overlap (fst m) (snd m) entities); [apply IH|].
    destruct (IH (entities ++ [regex_entity text language name m]))
      as (later & ->).
    eexists. by rewrite <- app_assoc.
Qed.

(** Among matches that do not overlap one another, one that meets no
    entity of the list it is added to is accepted. *)
Lemma add_matches_accepts text language name entities ms m :
  StronglySorted (fun a b : nat * nat => snd a <= fst b) ms ->
  m ∈ ms ->
  overlap (fst m) (snd m) entities = false ->
  regex_entity text language name m
    ∈ foldl (add_match text language name) entities ms.
Proof.
  intros Hs. revert entities.
  induction Hs as [|m0 ms Hms IH Hm0]; intros entities Hin Hov;
    [by apply elem_of_nil in Hin|].
  simpl. unfold add_match at 2.
  apply elem_of_cons in Hin as [->|Hin].
  - rewrite Hov.
    destruct (add_matches_grow text language name
                (entities ++ [regex_entity text language name m0]) ms)
      as (later & ->).
    apply elem_of_app. left. apply elem_of_app. right. left.
  - destruct (overlap (fst m0) (snd m0) entities); [by apply IH|].
    apply IH; [done|].
    unfold overlap. rewrite existsb_app. fold (overlap (fst m) (snd m) entities).
    rewrite Hov. simpl. rewrite orb_false_r.
    apply intersects_false. right. simpl.
    exact (proj1 (Forall_forall _ _) Hm0 m Hin).
Qed.

Lemma intersects_same_span (m : nat * nat) (e : Entity) :
  fst m < snd m -> e_start e = fst m -> e_end e = snd m ->
  intersects (fst m) (snd m) e = true.
Proof.
  intros Hlt Hs He. unfold intersects. rewrite Hs, He.
  apply negb_true_iff, orb_false_iff. split; apply Nat.leb_gt; lia.
Qed.

(** X11: an e-mail address that meets none of the spans kept from the
    recognizer is always returned, as an EMAIL entity with its text and
    offsets: EMAIL is the first pattern, so nothing found by a pattern can
    take its place. *)
Theorem email_matches_are_returned
    (llm : str -> result str) (nlp_en nlp_fr : str -> result (list Span))
    (text language : str) (ents : list Span) (tr : list call) (m : nat * nat) :
  is_blank text = false ->
  llm text = Ok language ->
  (if str_eqb language (lit "en") then nlp_en text else nlp_fr text) = Ok ents ->
  m ∈ finditer true email_pattern text ->
  (forall e,
     e ∈ spacy_entities language (selected_labels language) ents ->
     intersects (fst m) (snd m) e = false) ->
  exists out,
    fst (detect_pii_entities llm nlp_en nlp_fr text tr) = Ok out /\
    mkEntity (slice (fst m) (snd m) text) (lit "EMAIL") (fst m) (snd m)
             (lit "regex") language ∈ out.
Proof.
  intros Hblank Hllm Hnlp Hm Hfree.
  assert (Hsel : selected_nlp nlp_en nlp_fr language text = Ok ents).
  { unfold selected_nlp. by destruct (str_eqb language (lit "en")). }
  exists (aggregate text language ents).
  split; [by rewrite detect_unfold, Hblank, Hllm, Hsel|].
  set (kept := spacy_entities language (selected_labels language) ents) in *.
  set (e := mkEntity (slice (fst m) (snd m) text) (lit "EMAIL") (fst m) (snd m)
                     (lit "regex") language).
  set (acc1 := foldl (add_match text language (lit "EMAIL")) kept
                 (finditer true email_pattern text)).
  assert (Hlt : fst m < snd m).
  { destruct (scan_increasing true email_pattern text None 0 0) as [Hne _];
      [vm_compute; lia|].
    by destruct (proj1 (Forall_forall _ _) Hne m Hm). }
  assert (He1 : e ∈ acc1).
  { apply (add_matches_accepts text language (lit "EMAIL") kept _ m);
      [apply scan_increasing; vm_compute; lia | done |].
    apply overlap_false, Forall_forall. exact Hfree. }
  assert (Hacc1 : forall x, x ∈ acc1 -> entity_key x = entity_key e -> x = e).
  { intros x Hx Hk. unfold acc1 in Hx.
    assert (Hstart : e_start x = fst m)
      by exact (f_equal (fun k : str * nat * nat => snd (fst k)) Hk).
    assert (Hend : e_end x = snd m)
      by exact (f_equal (fun k : str * nat * nat => snd k) Hk).
    rewrite add_matches_as_candidates in Hx.
    destruct (add_candidates_spec text language
                (pair (lit "EMAIL") <$> finditer true email_pattern text) kept)
      as (added & Heq & Hadded & _).
    rewrite Heq in Hx. apply elem_of_app in Hx as [Hx|Hx].
    - pose proof (intersects_same_span m x Hlt Hstart Hend) as Hmeet.
      rewrite (Hfree x Hx) in Hmeet. done.
    - apply (proj1 (Forall_forall _ _) Hadded) in Hx as (c & Hc & -> & _).
      apply list_elem_of_fmap in Hc as (m' & -> & _).
      unfold candidate_entity, regex_entity in *. simpl in Hstart, Hend.
      unfold e. simpl. by rewrite Hstart, Hend. }
  unfold aggregate. rewrite sorted_perm. fold kept.
  unfold regex_loop.
  assert (Hsplit : regex_patterns =
            [(lit "EMAIL", email_pattern)] ++ drop 1 regex_patterns)
    by reflexivity.
  rewrite Hsplit, foldl_app. cbn [foldl].
  unfold add_pattern at 2. cbn [fst snd]. fold acc1.
  rewrite add_patterns_candidates.
  destruct (add_candidates_spec text language
              (flat_map (fun p => pair (fst p) <$> finditer true (snd p) text)
                 (drop 1 regex_patterns)) acc1)
    as (added & -> & Hadded & _).
  destruct (unique_loop_covers ∅ (acc1 ++ added) e) as (e0 & He0 & Hk);
    [apply elem_of_app; by left | apply not_elem_of_empty |].
  pose proof (unique_loop_elem_of _ _ _ He0) as [Hin _].
  apply elem_of_app in Hin as [Hin|Hin].
  - by rewrite <- (Hacc1 e0 Hin Hk).
  - apply (proj1 (Forall_forall _ _) Hadded) in Hin as (c & _ & Hc & Hov).
    apply overlap_false in Hov.
    pose proof (proj1 (Forall_forall _ _) Hov e He1) as Hno.
    assert (Hstart : fst (snd c) = fst m).
    { transitivity (e_start e0); [by rewrite Hc|].
      exact (f_equal (fun k : str * nat * nat => snd (fst k)) Hk). }
    assert (Hend : snd (snd c) = snd m).
    { transitivity (e_end e0); [by rewrite Hc|].
      exact (f_equal (fun k : str * nat * nat => snd k) Hk). }
    rewrite Hstart, Hend in Hno.
    rewrite (intersects_same_span m e Hlt eq_refl eq_refl) in Hno. done.
Qed.

Lemma email_matches_are_returned_witness :
  exists out,
    fst (detect_pii_entities (says "en") (finds mail_names) (finds [])
           mail_text []) = Ok out /\
    an_entity "EMAIL" "ada1815@math.org" 16 32 "regex" "en" ∈ out.
Proof.
  apply (email_matches_are_returned (says "en") (finds mail_names) (finds [])
           mail_text (lit "en") mail_names [] (16, 32));
    [reflexivity | reflexivity | reflexivity | vm_compute; left |].
  intros e He. vm_compute in He.
  apply elem_of_cons in He as [->|He]; [reflexivity|].
  by apply elem_of_nil in He.
Defined.

(** ** [answer_query] *)








